(** * consistent-hasher.h: the ring of nodes, its locator, mutators and resolver

    A shallow embedding of [src/consistent-hasher.h].  The C code keeps a
    dynamic array of nodes that is meant to stay sorted by position, searches
    it by bisection, and shifts or reallocates it on insert and delete.

    - C [int] and [unsigned int] values are integers of [Z]; the one signed
      computation that can leave the range of [int] (doubling the capacity,
      incrementing the length) is checked and faults.
    - The heap buffer behind [nodes] is a list whose length is the number of
      elements that was asked of [calloc]; [NULL] is [None].  Every access is
      bounds checked: what C leaves undefined is a [Fault] here.
    - The allocator may fail: every operation calls it at most once and takes
      the outcome of that call as a boolean. *)

From Stdlib Require Import ZArith Lia Bool.
From stdpp Require Import base list.

Local Open Scope Z_scope.

(** ** Undefined behaviour and results *)

Inductive fault : Type :=
  | DivByZero       (* [x % 0] *)
  | OutOfBounds     (* access outside of the allocated buffer *)
  | NullDeref       (* access through a null pointer *)
  | SignedOverflow  (* [int] arithmetic leaving the range of [int] *)
  | OutOfFuel.      (* the bound on the iterations of a [while] was too small *)

Inductive result (A : Type) : Type :=
  | Ok (a : A)
  | Fault (f : fault).
Arguments Ok {A} a.
Arguments Fault {A} f.

#[global] Instance result_ret : MRet result := @Ok.
#[global] Instance result_bind : MBind result := fun A B f m =>
  match m with
  | Ok a => f a
  | Fault e => Fault e
  end.

(** ** Types of the header *)

Definition ConsistentHasherHash : Type := Z.

Inductive ConsistentHasherError : Type :=
  | CONSISTENT_HASHER_OK
  | CONSISTENT_HASHER_ERROR_IS_NULL
  | CONSISTENT_HASHER_ERROR_ALLOCATION
  | CONSISTENT_HASHER_ERROR_NODE_PRESENT.

Record ConsistentHasherNode : Type := mkNode {
  hash : ConsistentHasherHash;
  position : Z
}.

(** The elements behind a non-null [nodes] pointer. *)
Abbreviation buffer := (list ConsistentHasherNode) (only parsing).

Record ConsistentHasher : Type := mkRing {
  ring_size : Z;
  nodes : option buffer;
  nodes_len : Z;
  nodes_capacity : Z
}.

Definition INT_MAX : Z := 2147483647.

(** The default of the configuration macro; [test.c] builds with 1. *)
Definition CONSISTENT_HASHER_INITIAL_CAPACITY : Z := 8.

(** ** Memory *)

(** What [calloc] hands out: zero bytes, so nodes with hash and position 0. *)
Definition zero_node : ConsistentHasherNode := mkNode 0 0.

(** [calloc(n, sizeof(ConsistentHasherNode))]; [ok] is whether it succeeds.
    For [n = 0] a successful call yields a pointer to no element at all. *)
Definition CONSISTENT_HASHER_CALLOC (ok : bool) (n : Z) : option buffer :=
  if ok then Some (replicate (Z.to_nat n) zero_node) else None.

(** [p[i]] as an rvalue. *)
Definition load (p : option buffer) (i : Z) : result ConsistentHasherNode :=
  match p with
  | None => Fault NullDeref
  | Some b =>
      if 0 <=? i then
        match b !! Z.to_nat i with
        | Some x => Ok x
        | None => Fault OutOfBounds
        end
      else Fault OutOfBounds
  end.

(** [p[i] = x]. *)
Definition store (p : option buffer) (i : Z) (x : ConsistentHasherNode)
  : result (option buffer) :=
  match p with
  | None => Fault NullDeref
  | Some b =>
      if (0 <=? i) && (i <? Z.of_nat (length b))
      then Ok (Some (<[Z.to_nat i := x]> b))
      else Fault OutOfBounds
  end.

(** ** Arithmetic *)

(** [h % m] on unsigned operands. *)
Definition umod (h m : Z) : result Z :=
  if m =? 0 then Fault DivByZero else Ok (h mod m).

(** A signed result that has to fit [int]. *)
Definition to_int (x : Z) : result Z :=
  if (- INT_MAX - 1 <=? x) && (x <=? INT_MAX) then Ok x else Fault SignedOverflow.

(** [(end - start) / 2 + start]; C division truncates towards zero. *)
Definition midpoint (start end_ : Z) : Z := (end_ - start) ÷ 2 + start.

(** ** Loops *)

(** [n] iterations of [body], the counter starting at [i] and moving by
    [step]: the shape of every [for] of the header, whose bounds do not
    change while it runs. *)
Fixpoint for_loop {S : Type} (n : nat) (i step : Z)
    (body : Z -> S -> result S) (s : S) : result S :=
  match n with
  | O => Ok s
  | S n' => s' ← body i s; for_loop n' (i + step) step body s'
  end.

(** The [while (end >= start)] of the search.  Every iteration that does not
    return shrinks the window, so [fuel] bounds the iterations. *)
Fixpoint bsearch_loop (fuel : nat) (p : option buffer) (pos : Z)
    (start end_ mid : Z) : result (bool * Z) :=
  if end_ >=? start then
    match fuel with
    | O => Fault OutOfFuel
    | S fuel' =>
        n ← load p mid;
        if position n =? pos then Ok (true, start)
        else
          let end' := if position n >? pos then mid - 1 else end_ in
          let start' :=
            if position n >? pos then start
            else if position n <? pos then mid + 1 else start in
          bsearch_loop fuel' p pos start' end' (midpoint start' end')
    end
  else Ok (false, mid).

(** ** The operations *)

Definition consistent_hasher_init (ch : option ConsistentHasher) (size : Z)
  : option ConsistentHasher :=
  match ch with
  | None => None
  | Some _ => Some (mkRing size None 0 0)
  end.

Definition consistent_hasher_destroy (ch : option ConsistentHasher)
  : option ConsistentHasher :=
  match ch with
  | None => None
  | Some r => Some (mkRing (ring_size r) None (nodes_len r) (nodes_capacity r))
  end.

(** Returns the flag and what is written through [index]. *)
Definition _consistent_hasher_binary_search (ch : option ConsistentHasher)
    (node_hash : ConsistentHasherHash) : result (bool * Z) :=
  match ch with
  | None => Fault NullDeref
  | Some r =>
      let start := 0 in
      let end_ := nodes_len r - 1 in
      pos ← umod node_hash (ring_size r);
      bsearch_loop (Z.to_nat (nodes_len r)) (nodes r) pos
                   start end_ (midpoint start end_)
  end.

(** [initial_capacity] is the value of the configuration macro
    [CONSISTENT_HASHER_INITIAL_CAPACITY] the header is built with, and
    [calloc_ok] whether the allocation, if one is made, succeeds.  The three
    paths are the first allocation, the reallocation when the buffer is full
    (which copies around the free slot), and the shift in place. *)
Definition consistent_hasher_insert_node (initial_capacity : Z) (calloc_ok : bool)
    (ch : option ConsistentHasher) (node_hash : ConsistentHasherHash)
  : result (ConsistentHasherError * option ConsistentHasher) :=
  match ch with
  | None => Ok (CONSISTENT_HASHER_ERROR_IS_NULL, None)
  | Some r =>
      pos ← umod node_hash (ring_size r);
      let new_node := mkNode node_hash pos in
      match nodes r with
      | None =>
          match CONSISTENT_HASHER_CALLOC calloc_ok initial_capacity with
          | None => Ok (CONSISTENT_HASHER_ERROR_ALLOCATION, Some r)
          | Some b =>
              p ← store (Some b) 0 new_node;
              Ok (CONSISTENT_HASHER_OK,
                  Some (mkRing (ring_size r) p 1 initial_capacity))
          end
      | Some _ =>
          '(found, index) ← _consistent_hasher_binary_search ch node_hash;
          if found : bool then Ok (CONSISTENT_HASHER_ERROR_NODE_PRESENT, Some r)
          else if nodes_capacity r =? nodes_len r then
            new_capacity ← to_int (nodes_capacity r * 2);
            match CONSISTENT_HASHER_CALLOC calloc_ok new_capacity with
            | None => Ok (CONSISTENT_HASHER_ERROR_ALLOCATION, Some r)
            | Some b =>
                new_nodes ←
                  for_loop (Z.to_nat (nodes_capacity r)) 0 1
                    (fun i q =>
                       n ← load (nodes r) i;
                       store q (if (i >=? index) && (i <? nodes_capacity r)
                                then i + 1 else i) n)
                    (Some b);
                new_nodes ← store new_nodes index new_node;
                len ← to_int (nodes_len r + 1);
                Ok (CONSISTENT_HASHER_OK,
                    Some (mkRing (ring_size r) new_nodes len new_capacity))
            end
          else
            p ← for_loop (Z.to_nat (nodes_len r - 1 - (index + 1)))
                  (nodes_len r - 1) (-1)
                  (fun i q => n ← load q (i - 1); store q i n)
                  (nodes r);
            p ← store p index new_node;
            len ← to_int (nodes_len r + 1);
            Ok (CONSISTENT_HASHER_OK,
                Some (mkRing (ring_size r) p len (nodes_capacity r)))
      end
  end.

(** A miss is a success.  A hit either reallocates to the new count, when
    that is half of the capacity, or shifts in place. *)
Definition consistent_hasher_delete_node (calloc_ok : bool)
    (ch : option ConsistentHasher) (node_hash : ConsistentHasherHash)
  : result (ConsistentHasherError * option ConsistentHasher) :=
  match ch with
  | None => Ok (CONSISTENT_HASHER_ERROR_IS_NULL, None)
  | Some r =>
      '(found, index) ← _consistent_hasher_binary_search ch node_hash;
      if negb found then Ok (CONSISTENT_HASHER_OK, Some r)
      else if nodes_len r - 1 =? nodes_capacity r ÷ 2 then
        match CONSISTENT_HASHER_CALLOC calloc_ok (nodes_len r - 1) with
        | None => Ok (CONSISTENT_HASHER_ERROR_ALLOCATION, Some r)
        | Some b =>
            new_nodes ←
              for_loop (Z.to_nat (nodes_len r - 1)) 0 1
                (fun i q =>
                   n ← load (nodes r) (if i <? index then i else i + 1);
                   store q i n)
                (Some b);
            Ok (CONSISTENT_HASHER_OK,
                Some (mkRing (ring_size r) new_nodes
                             (nodes_len r - 1) (nodes_len r - 1)))
        end
      else
        p ← for_loop (Z.to_nat (nodes_len r - 2 - index)) index 1
              (fun i q => n ← load q (i + 1); store q i n)
              (nodes r);
        Ok (CONSISTENT_HASHER_OK,
            Some (mkRing (ring_size r) p (nodes_len r - 1) (nodes_capacity r)))
  end.

(** No null check, and [nodes[index]] is read whatever [index] is. *)
Definition consistent_hasher_get_node_of (ch : option ConsistentHasher)
    (item_hash : ConsistentHasherHash) : result ConsistentHasherHash :=
  match ch with
  | None => Fault NullDeref
  | Some r =>
      '(_, index) ← _consistent_hasher_binary_search ch item_hash;
      pos ← umod item_hash (ring_size r);
      n ← load (nodes r) index;
      let index := if pos >? position n then 0 else index in
      n' ← load (nodes r) index;
      Ok (hash n')
  end.

(** ** Observing a ring *)

(** The entries in use: the first [nodes_len] slots of the buffer. *)
Definition entries (r : ConsistentHasher) : list ConsistentHasherNode :=
  match nodes r with
  | None => []
  | Some b => take (Z.to_nat (nodes_len r)) b
  end.

(** [nodes[i].position < nodes[i+1].position] for every valid [i]. *)
Definition sorted (l : list ConsistentHasherNode) : Prop :=
  forall (i : nat) (a b : ConsistentHasherNode),
    l !! i = Some a -> l !! S i = Some b -> position a < position b.

(** The node that insert makes for an identifier on a ring of a given size. *)
Definition node_of (size : Z) (h : ConsistentHasherHash) : ConsistentHasherNode :=
  mkNode h (h mod size).

(** ** Sequences of calls on one ring *)

Inductive op : Type :=
  | Insert (node_hash : ConsistentHasherHash) (calloc_ok : bool)
  | Delete (node_hash : ConsistentHasherHash) (calloc_ok : bool).

Definition apply_op (initial_capacity : Z) (ch : option ConsistentHasher) (o : op)
  : result (ConsistentHasherError * option ConsistentHasher) :=
  match o with
  | Insert h ok => consistent_hasher_insert_node initial_capacity ok ch h
  | Delete h ok => consistent_hasher_delete_node ok ch h
  end.

(** The caller goes on whatever the error code was. *)
Fixpoint run (initial_capacity : Z) (ch : option ConsistentHasher) (ops : list op)
  : result (option ConsistentHasher) :=
  match ops with
  | [] => Ok ch
  | o :: ops' =>
      '(_, ch') ← apply_op initial_capacity ch o;
      run initial_capacity ch' ops'
  end.

(** A ring variable of the caller, before [consistent_hasher_init]. *)
Definition uninitialised : option ConsistentHasher := Some (mkRing 0 None 0 0).

Definition fresh (size : Z) : option ConsistentHasher :=
  consistent_hasher_init uninitialised size.

(** ** Predicates on rings and results *)

(** A computation that does not stop on a division by zero. *)
Definition no_div {A} (m : result A) : Prop := m <> Fault DivByZero.

(** The entries are within the buffer: the loads of the search are defined. *)
Definition in_bounds (r : ConsistentHasher) : Prop :=
  match nodes r with
  | None => nodes_len r <= 0
  | Some b => nodes_len r <= Z.of_nat (length b)
  end.

(** [p] points to a buffer of [n] elements. *)
Definition has_length (p : option buffer) (n : nat) : Prop :=
  exists b : buffer, p = Some b /\ length b = n.

(** The buffer has [nodes_capacity] elements, of which [nodes_len] are in
    use; a ring without a buffer is empty. *)
Definition ring_inv (r : ConsistentHasher) : Prop :=
  match nodes r with
  | None => nodes_len r = 0 /\ nodes_capacity r = 0
  | Some b =>
      Z.of_nat (length b) = nodes_capacity r /\
      0 <= nodes_len r <= nodes_capacity r
  end.

(** Sortedness of a concrete array, by computation. *)
Fixpoint sortedb (l : list ConsistentHasherNode) : bool :=
  match l with
  | a :: (b :: _) as t => (position a <? position b) && sortedb t
  | _ => true
  end.

(** ** Concrete rings *)

(** A buffer of [cap] slots that starts with [l]; the rest is as [calloc]
    left it. *)
Definition slots (l : list ConsistentHasherNode) (cap : nat) : option buffer :=
  Some (l ++ replicate (cap - length l) zero_node).

(** A node whose hash is below the ring size, so that it is its position. *)
Definition at_ (h : Z) : ConsistentHasherNode := mkNode h h.

Definition ring_of_size_0 : ConsistentHasher :=
  mkRing 0 None 0 0.
Definition ring_123 : ConsistentHasher :=
  mkRing 1024 (slots [at_ 123] 8) 1 8.
Definition ring_123_gone : ConsistentHasher :=
  mkRing 1024 (slots [at_ 123] 8) 0 8.
Definition ring_456 : ConsistentHasher :=
  mkRing 1024 (slots [at_ 456] 8) 1 8.
Definition ring_123_0 : ConsistentHasher :=
  mkRing 1024 (slots [at_ 123] 8) 2 8.
Definition ring_50_0_0 : ConsistentHasher :=
  mkRing 1024 (slots [at_ 50] 8) 3 8.
Definition ring_50_0_0_50 : ConsistentHasher :=
  mkRing 1024 (slots [at_ 50; zero_node; zero_node; mkNode 1074 50] 8) 4 8.
Definition ring_123_456_924 : ConsistentHasher :=
  mkRing 1024 (slots [at_ 123; at_ 456; at_ 924] 8) 3 8.
Definition ring_100_200_300 : ConsistentHasher :=
  mkRing 1024 (slots [at_ 100; at_ 200; at_ 300] 8) 3 8.
Definition ring_200_200 : ConsistentHasher :=
  mkRing 1024 (slots [at_ 200; at_ 200; at_ 300] 8) 2 8.
Definition ring_100_200_stale : ConsistentHasher :=
  mkRing 1024 (slots [at_ 100; at_ 200; at_ 300] 8) 2 8.
Definition tight_100 : ConsistentHasher :=
  mkRing 1024 (slots [at_ 100] 1) 1 1.
Definition tight_100_300 : ConsistentHasher :=
  mkRing 1024 (slots [at_ 100; at_ 300] 2) 2 2.
Definition tight_100_200_300 : ConsistentHasher :=
  mkRing 1024 (slots [at_ 100; at_ 200; at_ 300] 4) 3 4.
Definition tight_200_300 : ConsistentHasher :=
  mkRing 1024 (slots [at_ 200; at_ 300] 2) 2 2.
Definition drained : ConsistentHasher :=
  mkRing 1024 (Some []) 0 0.

(** * Proofs *)

(** ** Reasoning about results *)

(* The primitives are reasoned about through their lemmas. *)
Arguments load : simpl never.
Arguments store : simpl never.
Arguments umod : simpl never.
Arguments to_int : simpl never.
Arguments midpoint : simpl never.

Lemma bind_Ok {A B} (a : A) (f : A -> result B) : (Ok a ≫= f) = f a.
Proof. reflexivity. Qed.

Lemma bind_inv_Ok {A B} (m : result A) (f : A -> result B) (b : B) :
  m ≫= f = Ok b -> exists a, m = Ok a /\ f a = Ok b.
Proof. destruct m as [a|e]; [eauto | discriminate]. Qed.

Lemma no_div_Ok {A} (a : A) : no_div (Ok a).
Proof. discriminate. Qed.

Lemma no_div_bind {A B} (m : result A) (f : A -> result B) :
  no_div m -> (forall a, m = Ok a -> no_div (f a)) -> no_div (m ≫= f).
Proof.
  intros Hm Hf. destruct m as [a|e]; simpl.
  - apply Hf. reflexivity.
  - intros E. apply Hm. injection E as ->. reflexivity.
Qed.

Lemma no_div_load p i : no_div (load p i).
Proof. unfold load, no_div. repeat case_match; discriminate. Qed.

Lemma no_div_store p i x : no_div (store p i x).
Proof. unfold store, no_div. repeat case_match; discriminate. Qed.

Lemma no_div_to_int x : no_div (to_int x).
Proof. unfold to_int, no_div. case_match; discriminate. Qed.

Lemma no_div_umod h m : m <> 0 -> no_div (umod h m).
Proof.
  intros Hm. unfold umod, no_div.
  destruct (Z.eqb_spec m 0); [contradiction | discriminate].
Qed.

Lemma umod_zero h : umod h 0 = Fault DivByZero.
Proof. reflexivity. Qed.

Lemma umod_nonzero h m : m <> 0 -> umod h m = Ok (h mod m).
Proof. intros Hm. unfold umod. destruct (Z.eqb_spec m 0); [contradiction | reflexivity]. Qed.

Lemma no_div_for_loop {S} (body : Z -> S -> result S) n :
  (forall i s, no_div (body i s)) ->
  forall i step s, no_div (for_loop n i step body s).
Proof.
  intros Hbody. induction n as [|n IH]; intros i step s; simpl.
  - apply no_div_Ok.
  - apply no_div_bind; [apply Hbody | intros; apply IH].
Qed.

Lemma no_div_bsearch_loop fuel p pos :
  forall start end_ mid, no_div (bsearch_loop fuel p pos start end_ mid).
Proof.
  induction fuel as [|fuel IH]; intros start end_ mid; simpl.
  - case_match; discriminate.
  - case_match; [| apply no_div_Ok].
    apply no_div_bind; [apply no_div_load |].
    intros n _. case_match; [apply no_div_Ok | apply IH].
Qed.

(** ** The search window *)

Lemma midpoint_bounds start end_ :
  start <= end_ -> start <= midpoint start end_ <= end_.
Proof.
  intros H. unfold midpoint.
  assert (0 <= (end_ - start) ÷ 2 <= end_ - start); [| lia].
  rewrite Z.quot_div_nonneg by lia.
  split; [apply Z.div_pos; lia | apply Z.div_le_upper_bound; lia].
Qed.

(** When the window is empty the loop has moved [start] one past [end], and
    the truncating division makes the midpoint [start] itself. *)
Lemma midpoint_empty start : midpoint start (start - 1) = start.
Proof. unfold midpoint. replace (start - 1 - start) with (-1) by lia. reflexivity. Qed.

Lemma load_Some (b : buffer) i n :
  0 <= i -> b !! Z.to_nat i = Some n -> load (Some b) i = Ok n.
Proof.
  intros Hi Hn. unfold load.
  destruct (Z.leb_spec 0 i); [| lia]. rewrite Hn. reflexivity.
Qed.

Lemma load_in_range (b : buffer) i :
  0 <= i < Z.of_nat (length b) ->
  exists n, b !! Z.to_nat i = Some n /\ load (Some b) i = Ok n.
Proof.
  intros Hi. destruct (lookup_lt_is_Some_2 b (Z.to_nat i)) as [n Hn]; [lia |].
  exists n. split; [exact Hn | apply load_Some; [lia | exact Hn]].
Qed.

(** The search returns on every ring whose entries are within the buffer,
    sorted or not: the bound on its iterations is never met and every probe
    is inside the window. *)
Lemma bsearch_loop_returns (b : buffer) (pos : Z) (fuel : nat) :
  forall start end_,
    0 <= start -> end_ < Z.of_nat (length b) ->
    end_ - start + 1 <= Z.of_nat fuel ->
    exists res, bsearch_loop fuel (Some b) pos start end_ (midpoint start end_)
                = Ok res.
Proof.
  induction fuel as [|fuel IH]; intros start end_ Hs He Hfuel;
    cbn [bsearch_loop].
  - destruct (Z.geb_spec end_ start); [lia | eauto].
  - destruct (Z.geb_spec end_ start) as [Hge|Hlt]; [| eauto].
    pose proof (midpoint_bounds start end_ ltac:(lia)) as Hmid.
    destruct (load_in_range b (midpoint start end_) ltac:(lia)) as (n & Hn & ->).
    rewrite bind_Ok.
    destruct (Z.eqb_spec (position n) pos); [eauto |].
    destruct (Z.gtb_spec (position n) pos).
    + apply IH; lia.
    + destruct (Z.ltb_spec (position n) pos); apply IH; lia.
Qed.

Lemma binary_search_returns (r : ConsistentHasher) (h : ConsistentHasherHash) :
  ring_size r <> 0 -> in_bounds r ->
  exists res, _consistent_hasher_binary_search (Some r) h = Ok res.
Proof.
  intros Hsize Hin. unfold _consistent_hasher_binary_search.
  rewrite umod_nonzero by exact Hsize. rewrite bind_Ok.
  unfold in_bounds in Hin. destruct (nodes r) as [b|].
  - apply bsearch_loop_returns; lia.
  - destruct (Z.to_nat (nodes_len r)); simpl;
      destruct (Z.geb_spec (nodes_len r - 1) 0); try lia; eauto.
Qed.

(** No entry of the window at [pos]: the search ends on a miss. *)
Lemma bsearch_loop_absent (b : buffer) (pos : Z) (fuel : nat) :
  forall start end_,
    0 <= start -> end_ < Z.of_nat (length b) ->
    end_ - start + 1 <= Z.of_nat fuel ->
    (forall i n, start <= i <= end_ -> b !! Z.to_nat i = Some n ->
                 position n <> pos) ->
    exists i, bsearch_loop fuel (Some b) pos start end_ (midpoint start end_)
              = Ok (false, i).
Proof.
  induction fuel as [|fuel IH]; intros start end_ Hs He Hfuel Habs;
    cbn [bsearch_loop].
  - destruct (Z.geb_spec end_ start); [lia | eauto].
  - destruct (Z.geb_spec end_ start) as [Hge|Hlt]; [| eauto].
    pose proof (midpoint_bounds start end_ ltac:(lia)) as Hmid.
    destruct (load_in_range b (midpoint start end_) ltac:(lia)) as (n & Hn & ->).
    rewrite bind_Ok.
    destruct (Z.eqb_spec (position n) pos) as [Heq|Hne].
    { exfalso. eapply Habs; [| exact Hn | exact Heq]. lia. }
    destruct (Z.gtb_spec (position n) pos).
    + apply IH; [lia | lia | lia |].
      intros i m Hi. apply Habs. lia.
    + destruct (Z.ltb_spec (position n) pos); [| lia].
      apply IH; [lia | lia | lia |].
      intros i m Hi. apply Habs. lia.
Qed.

Lemma lookup_entries r (b : buffer) (i : nat) n :
  nodes r = Some b -> (Z.of_nat i < nodes_len r) -> b !! i = Some n ->
  n ∈ entries r.
Proof.
  intros Hb Hi Hn. unfold entries. rewrite Hb.
  apply list_elem_of_lookup. exists i.
  rewrite lookup_take_lt by lia. exact Hn.
Qed.

(** The locator misses every position that no entry holds, sorted or not. *)
Lemma binary_search_absent (r : ConsistentHasher) (h : ConsistentHasherHash) :
  ring_size r <> 0 -> in_bounds r ->
  (forall n, n ∈ entries r -> position n <> h mod ring_size r) ->
  exists i, _consistent_hasher_binary_search (Some r) h = Ok (false, i).
Proof.
  intros Hsize Hin Habs. unfold _consistent_hasher_binary_search.
  rewrite umod_nonzero by exact Hsize. rewrite bind_Ok.
  unfold in_bounds in Hin. destruct (nodes r) as [b|] eqn:Hb.
  - apply bsearch_loop_absent; [lia | lia | lia |].
    intros i n Hi Hn. apply Habs.
    apply (lookup_entries r b (Z.to_nat i) n Hb); [lia | exact Hn].
  - destruct (Z.to_nat (nodes_len r)); simpl;
      destruct (Z.geb_spec (nodes_len r - 1) 0); try lia; eauto.
Qed.

(** ** The locator on a sorted array *)

(** Adjacent order gives order between any two entries. *)
Lemma sorted_lt l (i j : nat) a b :
  sorted l -> (i < j)%nat -> l !! i = Some a -> l !! j = Some b ->
  position a < position b.
Proof.
  intros Hs Hij Ha. revert b. induction Hij as [|j Hij IH]; intros b Hb.
  - exact (Hs i a b Ha Hb).
  - destruct (lookup_lt_is_Some_2 l j) as [c Hc].
    { apply lookup_lt_Some in Hb. lia. }
    pose proof (IH c Hc). pose proof (Hs j c b Hc Hb). lia.
Qed.

(** On a sorted buffer, with everything left of the window below [pos] and
    everything right of it above, the loop returns; the index it reports has
    only smaller positions to its left; on a miss everything from the index
    on is larger, so the index is the lower bound; on a hit the entry at
    [pos] is at the index or somewhere to its right. *)
Lemma bsearch_loop_sorted (b : buffer) (pos len : Z) (fuel : nat) :
  len <= Z.of_nat (length b) ->
  (forall (i j : nat) x y, (i < j)%nat -> Z.of_nat j < len ->
     b !! i = Some x -> b !! j = Some y -> position x < position y) ->
  forall start end_,
    0 <= start -> end_ < len -> start <= end_ + 1 ->
    end_ - start + 1 <= Z.of_nat fuel ->
    (forall j n, 0 <= j < start -> b !! Z.to_nat j = Some n -> position n < pos) ->
    (forall j n, end_ < j < len -> b !! Z.to_nat j = Some n -> pos < position n) ->
    exists found i,
      bsearch_loop fuel (Some b) pos start end_ (midpoint start end_)
        = Ok (found, i) /\
      start <= i <= end_ + 1 /\
      (forall j n, 0 <= j < i -> b !! Z.to_nat j = Some n -> position n < pos) /\
      if found : bool
      then exists k n, i <= k < len /\ b !! Z.to_nat k = Some n /\ position n = pos
      else forall j n, i <= j < len -> b !! Z.to_nat j = Some n -> pos < position n.
Proof.
  intros Hlen Hsorted.
  induction fuel as [|fuel IH]; intros start end_ Hs He Hse Hfuel Hlow Hhigh;
    cbn [bsearch_loop].
  - destruct (Z.geb_spec end_ start); [lia |].
    assert (end_ = start - 1) as -> by lia. rewrite midpoint_empty.
    exists false, start. repeat split; [lia | lia | exact Hlow |].
    intros j n Hj. apply Hhigh. lia.
  - destruct (Z.geb_spec end_ start) as [Hge|Hlt].
    2:{ assert (end_ = start - 1) as -> by lia. rewrite midpoint_empty.
        exists false, start. repeat split; [lia | lia | exact Hlow |].
        intros j n Hj. apply Hhigh. lia. }
    pose proof (midpoint_bounds start end_ ltac:(lia)) as Hmid.
    set (mid := midpoint start end_) in *.
    destruct (load_in_range b mid ltac:(lia)) as (n & Hn & ->).
    rewrite bind_Ok.
    destruct (Z.eqb_spec (position n) pos) as [Heq|Hne].
    { exists true, start. repeat split; [lia | lia | exact Hlow |].
      exists mid, n. repeat split; [lia | lia | exact Hn | exact Heq]. }
    destruct (Z.gtb_spec (position n) pos) as [Hgt|Hle].
    + destruct (IH start (mid - 1)) as (found & i & Hrun & Hi & Hleft & Hres);
        [lia | lia | lia | lia | exact Hlow | |].
      { intros j m Hj Hm. destruct (Z.eq_dec j mid) as [->|Hjm].
        - rewrite Hn in Hm. injection Hm as <-. lia.
        - assert (position n < position m); [| lia].
          apply (Hsorted (Z.to_nat mid) (Z.to_nat j)); [lia | lia | exact Hn | exact Hm]. }
      exists found, i. split; [exact Hrun |]. split; [lia |]. split; [exact Hleft |].
      exact Hres.
    + destruct (Z.ltb_spec (position n) pos) as [Hlt|Hge']; [| lia].
      destruct (IH (mid + 1) end_) as (found & i & Hrun & Hi & Hleft & Hres);
        [lia | lia | lia | lia | | exact Hhigh |].
      { intros j m Hj Hm. destruct (Z.eq_dec j mid) as [->|Hjm].
        - rewrite Hn in Hm. injection Hm as <-. lia.
        - destruct (Z.lt_ge_cases j start) as [Hjs|Hjs]; [apply (Hlow j); [lia | exact Hm] |].
          assert (position m < position n); [| lia].
          apply (Hsorted (Z.to_nat j) (Z.to_nat mid)); [lia | lia | exact Hm | exact Hn]. }
      exists found, i. split; [exact Hrun |]. split; [lia |]. split; [exact Hleft |].
      exact Hres.
Qed.

(** The locator on a sorted ring.  It returns.  On a miss the index is the
    lower bound of the position: the entries before it are smaller, the
    entries from it on are larger.  On a hit the flag is right, but the
    index is the start of the last window: the entries before it are
    smaller, and the entry at the position is at that index or after it. *)
Lemma binary_search_sorted (r : ConsistentHasher) (h : ConsistentHasherHash) :
  ring_size r <> 0 -> in_bounds r -> 0 <= nodes_len r -> sorted (entries r) ->
  exists found i,
    _consistent_hasher_binary_search (Some r) h = Ok (found, i) /\
    0 <= i <= nodes_len r /\
    (forall (j : nat) n, entries r !! j = Some n -> Z.of_nat j < i ->
                         position n < h mod ring_size r) /\
    if found : bool
    then exists (k : nat) n, i <= Z.of_nat k /\ entries r !! k = Some n /\
                             position n = h mod ring_size r
    else forall (j : nat) n, entries r !! j = Some n -> i <= Z.of_nat j ->
                             h mod ring_size r < position n.
Proof.
  intros Hsize Hin Hlen Hsorted. unfold _consistent_hasher_binary_search.
  rewrite umod_nonzero by exact Hsize. rewrite bind_Ok.
  set (pos := h mod ring_size r).
  unfold in_bounds in Hin. unfold entries in *.
  destruct (nodes r) as [b|] eqn:Hb.
  - assert (forall (i j : nat) x y, (i < j)%nat -> Z.of_nat j < nodes_len r ->
              b !! i = Some x -> b !! j = Some y -> position x < position y)
      as Hord.
    { intros i j x y Hij Hj Hx Hy.
      apply (sorted_lt _ i j x y Hsorted Hij);
        rewrite lookup_take_lt by lia; assumption. }
    destruct (bsearch_loop_sorted b pos (nodes_len r) (Z.to_nat (nodes_len r))
                Hin Hord 0 (nodes_len r - 1))
      as (found & i & Hrun & Hi & Hleft & Hres); try lia.
    exists found, i. split; [exact Hrun |]. split; [lia |]. split.
    { intros j n Hn Hj. apply (Hleft (Z.of_nat j)); [lia |].
      rewrite Nat2Z.id. apply lookup_take_Some in Hn as [Hn _]. exact Hn. }
    destruct found.
    + destruct Hres as (k & n & Hk & Hn & Hpos).
      exists (Z.to_nat k), n. split; [lia |]. split; [| exact Hpos].
      rewrite lookup_take_lt by lia. exact Hn.
    + intros j n Hn Hj. apply lookup_take_Some in Hn as [Hn Hjl].
      apply (Hres (Z.of_nat j)); [lia |]. rewrite Nat2Z.id. exact Hn.
  - assert (nodes_len r = 0) as -> by lia.
    exists false, 0. split; [reflexivity |]. split; [lia |].
    split; intros j n Hn; discriminate Hn.
Qed.

(** ** Deciding sortedness of a concrete array *)

Lemma sortedb_sorted l : sortedb l = true <-> sorted l.
Proof.
  induction l as [|a [|b t] IH].
  - split; [intros _ i x y Hx; discriminate | reflexivity].
  - split; [intros _ [|i] x y Hx Hy; discriminate | reflexivity].
  - change (sortedb (a :: b :: t))
      with ((position a <? position b) && sortedb (b :: t)).
    rewrite andb_true_iff, Z.ltb_lt, IH. split.
    + intros [Hab Ht] [|i] x y Hx Hy.
      * injection Hx as <-. injection Hy as <-. exact Hab.
      * exact (Ht i x y Hx Hy).
    + intros H. split.
      * exact (H 0%nat a b eq_refl eq_refl).
      * intros i x y Hx Hy. exact (H (S i) x y Hx Hy).
Qed.

Lemma not_sortedb_not_sorted l : sortedb l = false -> ~ sorted l.
Proof. intros Hb Hs. apply sortedb_sorted in Hs. congruence. Qed.

(** ** Division by the ring size *)

(** One step through a computation built from the primitives above. *)
Ltac no_div_step :=
  match goal with
  | |- no_div (Ok _) => apply no_div_Ok
  | |- no_div (load _ _) => apply no_div_load
  | |- no_div (store _ _ _) => apply no_div_store
  | |- no_div (to_int _) => apply no_div_to_int
  | |- no_div (bsearch_loop _ _ _ _ _ _) => apply no_div_bsearch_loop
  | |- no_div (for_loop _ _ _ _ _) => apply no_div_for_loop; intros
  | |- no_div (_ ≫= _) => apply no_div_bind; [| intros ? ?]
  | |- no_div (let '(_, _) := ?x in _) => destruct x
  | |- no_div (match ?x with _ => _ end) => destruct x eqn:?
  end.

Lemma no_div_binary_search r h :
  ring_size r <> 0 -> no_div (_consistent_hasher_binary_search (Some r) h).
Proof.
  intros Hsize. unfold _consistent_hasher_binary_search.
  rewrite umod_nonzero by exact Hsize. rewrite bind_Ok. repeat no_div_step.
Qed.

Lemma no_div_insert_node initial_capacity calloc_ok r h :
  ring_size r <> 0 ->
  no_div (consistent_hasher_insert_node initial_capacity calloc_ok (Some r) h).
Proof.
  intros Hsize. unfold consistent_hasher_insert_node.
  rewrite umod_nonzero by exact Hsize. rewrite bind_Ok.
  destruct (nodes r) as [b|] eqn:Hb.
  - apply no_div_bind; [apply no_div_binary_search; exact Hsize |].
    intros [found index] _. repeat no_div_step.
  - repeat no_div_step.
Qed.

Lemma no_div_delete_node calloc_ok r h :
  ring_size r <> 0 ->
  no_div (consistent_hasher_delete_node calloc_ok (Some r) h).
Proof.
  intros Hsize. unfold consistent_hasher_delete_node.
  apply no_div_bind; [apply no_div_binary_search; exact Hsize |].
  intros [found index] _. repeat no_div_step.
Qed.

Lemma no_div_get_node_of r h :
  ring_size r <> 0 -> no_div (consistent_hasher_get_node_of (Some r) h).
Proof.
  intros Hsize. unfold consistent_hasher_get_node_of.
  apply no_div_bind; [apply no_div_binary_search; exact Hsize |].
  intros [found index] _.
  rewrite umod_nonzero by exact Hsize. rewrite bind_Ok. repeat no_div_step.
Qed.


(** ** The shape of a ring that the operations maintain *)

Lemma ring_inv_in_bounds r : ring_inv r -> in_bounds r.
Proof. unfold ring_inv, in_bounds. destruct (nodes r); lia. Qed.

Tactic Notation "inv_bind" hyp(H) "as" ident(x) ident(Hx) :=
  apply bind_inv_Ok in H as (x & Hx & H).

Lemma store_inv p i x p' :
  store p i x = Ok p' ->
  exists b : buffer,
    p = Some b /\ 0 <= i < Z.of_nat (length b) /\ p' = Some (<[Z.to_nat i := x]> b).
Proof.
  unfold store. destruct p as [b|]; [| discriminate].
  destruct (Z.leb_spec 0 i); simpl; [| discriminate].
  destruct (Z.ltb_spec i (Z.of_nat (length b))); [| discriminate].
  intros [= <-]. exists b. repeat split; lia.
Qed.

Lemma store_has_length p i x p' n :
  store p i x = Ok p' -> has_length p n -> has_length p' n.
Proof.
  intros Hst (b & -> & Hlen). apply store_inv in Hst as (b' & [= <-] & _ & ->).
  exists (<[Z.to_nat i := x]> b). split; [reflexivity |].
  rewrite length_insert. exact Hlen.
Qed.

Lemma for_loop_has_length (body : Z -> option buffer -> result (option buffer)) len :
  (forall i q q', body i q = Ok q' -> has_length q len -> has_length q' len) ->
  forall n i step q q',
    for_loop n i step body q = Ok q' -> has_length q len -> has_length q' len.
Proof.
  intros Hbody. induction n as [|n IH]; intros i step q q' H Hq; simpl in H.
  - injection H as <-. exact Hq.
  - inv_bind H as q1 Hq1. eapply IH; [exact H |]. eapply Hbody; eassumption.
Qed.

Lemma copy_has_length (src : option buffer) (f g : Z -> Z) len i q q' :
  (n ← load src (f i); store q (g i) n) = Ok q' ->
  has_length q len -> has_length q' len.
Proof. intros H. inv_bind H as n Hn. eapply store_has_length; exact H. Qed.

(** A hit needs a first iteration: the array is not empty. *)
Lemma bsearch_loop_found_nonempty fuel p pos start end_ mid i :
  bsearch_loop fuel p pos start end_ mid = Ok (true, i) -> start <= end_.
Proof.
  destruct fuel; simpl; destruct (Z.geb_spec end_ start); try discriminate; lia.
Qed.

Lemma binary_search_found_nonempty r h i :
  _consistent_hasher_binary_search (Some r) h = Ok (true, i) -> 1 <= nodes_len r.
Proof.
  unfold _consistent_hasher_binary_search. intros H. inv_bind H as pos Hpos.
  apply bsearch_loop_found_nonempty in H. lia.
Qed.

Lemma to_int_inv x y : to_int x = Ok y -> y = x /\ x <= INT_MAX.
Proof.
  unfold to_int. destruct (Z.leb_spec (- INT_MAX - 1) x); simpl; [| discriminate].
  destruct (Z.leb_spec x INT_MAX); [| discriminate].
  intros [= <-]. lia.
Qed.

Lemma has_length_ring_inv size p len cap n :
  has_length p n -> Z.of_nat n = cap -> 0 <= len <= cap ->
  ring_inv (mkRing size p len cap).
Proof. intros (b & -> & <-) <- Hlen. unfold ring_inv. simpl. lia. Qed.

Lemma ring_inv_has_length r (b : buffer) :
  ring_inv r -> nodes r = Some b ->
  has_length (nodes r) (Z.to_nat (nodes_capacity r)) /\
  0 <= nodes_len r <= nodes_capacity r.
Proof.
  unfold ring_inv. intros H Hb. rewrite Hb in *. destruct H as [Hl Hn].
  split; [| exact Hn]. exists b. split; [reflexivity | lia].
Qed.

(** Every insert that returns keeps the shape, whatever it returns. *)
Lemma insert_node_ring_inv initial_capacity calloc_ok r h e ch' :
  ring_inv r ->
  consistent_hasher_insert_node initial_capacity calloc_ok (Some r) h = Ok (e, ch') ->
  exists r', ch' = Some r' /\ ring_inv r' /\ ring_size r' = ring_size r.
Proof.
  intros Hinv H. unfold consistent_hasher_insert_node in H.
  inv_bind H as pos Hpos. destruct (nodes r) as [b|] eqn:Hb.
  - destruct (ring_inv_has_length r b Hinv Hb) as [Hlen Hn]. rewrite Hb in Hlen.
    inv_bind H as fi Hfi. destruct fi as [found index].
    destruct found; [injection H as <- <-; eauto |].
    destruct (Z.eqb_spec (nodes_capacity r) (nodes_len r)) as [Hfull|Hroom].
    + inv_bind H as cap' Hcap'. apply to_int_inv in Hcap' as [-> Hmax].
      destruct calloc_ok; simpl in H; [| injection H as <- <-; eauto].
      inv_bind H as q1 Hq1. inv_bind H as q2 Hq2. inv_bind H as len' Hlen'.
      injection H as <- <-. apply to_int_inv in Hlen' as [-> _].
      eexists. split; [reflexivity |]. split; [| reflexivity].
      assert (has_length q1 (Z.to_nat (nodes_capacity r * 2))) as Hl1.
      { eapply for_loop_has_length; [| exact Hq1 |].
        - intros i q q'. apply (copy_has_length _ (fun i => i) (fun i => _)).
        - eexists. split; [reflexivity | apply length_replicate]. }
      pose proof (store_has_length _ _ _ _ _ Hq2 Hl1) as Hl2.
      apply store_inv in Hq2 as (b2 & -> & Hidx & _).
      destruct Hl1 as (b2' & [= <-] & Hl1).
      eapply has_length_ring_inv; [exact Hl2 | |]; lia.
    + inv_bind H as q1 Hq1. inv_bind H as q2 Hq2. inv_bind H as len' Hlen'.
      injection H as <- <-. apply to_int_inv in Hlen' as [-> _].
      eexists. split; [reflexivity |]. split; [| reflexivity].
      assert (has_length q1 (Z.to_nat (nodes_capacity r))) as Hl1.
      { eapply for_loop_has_length; [| exact Hq1 | exact Hlen].
        intros i q q'. apply (copy_has_length q (fun i => i - 1) (fun i => i)). }
      pose proof (store_has_length _ _ _ _ _ Hq2 Hl1) as Hl2.
      eapply has_length_ring_inv; [exact Hl2 | |]; lia.
  - unfold ring_inv in Hinv. rewrite Hb in Hinv.
    destruct calloc_ok; simpl in H; [| injection H as <- <-].
    + inv_bind H as q1 Hq1. injection H as <- <-.
      eexists. split; [reflexivity |]. split; [| reflexivity].
      apply store_inv in Hq1 as (b' & [= <-] & Hidx & ->).
      rewrite length_replicate in Hidx.
      eapply has_length_ring_inv.
      * eexists. split; [reflexivity |]. rewrite length_insert.
        apply length_replicate.
      * lia.
      * lia.
    + eexists. split; [reflexivity |]. split; [| reflexivity].
      unfold ring_inv. rewrite Hb. exact Hinv.
Qed.

(** And so does every delete. *)
Lemma delete_node_ring_inv calloc_ok r h e ch' :
  ring_inv r ->
  consistent_hasher_delete_node calloc_ok (Some r) h = Ok (e, ch') ->
  exists r', ch' = Some r' /\ ring_inv r' /\ ring_size r' = ring_size r.
Proof.
  intros Hinv H. unfold consistent_hasher_delete_node in H.
  inv_bind H as fi Hfi. destruct fi as [found index].
  destruct found; simpl in H; [| injection H as <- <-; eauto].
  apply binary_search_found_nonempty in Hfi.
  destruct (nodes r) as [b|] eqn:Hb;
    [| unfold ring_inv in Hinv; rewrite Hb in Hinv; lia].
  destruct (ring_inv_has_length r b Hinv Hb) as [Hlen Hn]. rewrite Hb in Hlen.
  destruct (Z.eqb_spec (nodes_len r - 1) (nodes_capacity r ÷ 2)) as [Hhalf|Hmore].
  - destruct calloc_ok; simpl in H; [| injection H as <- <-; eauto].
    inv_bind H as q1 Hq1. injection H as <- <-.
    eexists. split; [reflexivity |]. split; [| reflexivity].
    eapply has_length_ring_inv with (n := Z.to_nat (nodes_len r - 1)); [| lia | lia].
    eapply for_loop_has_length; [| exact Hq1 |].
    + intros i q q'.
      apply (copy_has_length _ (fun i => if i <? index then i else i + 1) (fun i => i)).
    + eexists. split; [reflexivity | apply length_replicate].
  - inv_bind H as q1 Hq1. injection H as <- <-.
    eexists. split; [reflexivity |]. split; [| reflexivity].
    eapply has_length_ring_inv with (n := Z.to_nat (nodes_capacity r)); [| lia | lia].
    eapply for_loop_has_length; [| exact Hq1 | exact Hlen].
    intros i q q'. apply (copy_has_length q (fun i => i + 1) (fun i => i)).
Qed.

Lemma fresh_ring_inv size : ring_inv (mkRing size None 0 0).
Proof. unfold ring_inv. simpl. lia. Qed.

Lemma apply_op_ring_inv initial_capacity r o e ch' :
  ring_inv r -> apply_op initial_capacity (Some r) o = Ok (e, ch') ->
  exists r', ch' = Some r' /\ ring_inv r' /\ ring_size r' = ring_size r.
Proof.
  destruct o as [h ok|h ok]; simpl.
  - apply insert_node_ring_inv.
  - apply delete_node_ring_inv.
Qed.

(** The shape holds after every sequence of calls that all return. *)
Lemma run_ring_inv initial_capacity ops :
  forall r ch', ring_inv r -> run initial_capacity (Some r) ops = Ok ch' ->
  exists r', ch' = Some r' /\ ring_inv r' /\ ring_size r' = ring_size r.
Proof.
  induction ops as [|o ops IH]; intros r ch' Hinv H; simpl in H.
  - injection H as <-. eauto.
  - inv_bind H as ec Hec. destruct ec as [e ch1].
    destruct (apply_op_ring_inv _ _ _ _ _ Hinv Hec) as (r1 & -> & Hinv1 & Hs1).
    destruct (IH _ _ Hinv1 H) as (r' & -> & Hinv' & Hs').
    exists r'. repeat split; [exact Hinv' | congruence].
Qed.

(** X6.  Along calls that return, from a fresh ring on, the count stays
    between 0 and the capacity, within the buffer, and the ring size is the
    one given to [consistent_hasher_init]. *)
Lemma run_count_le_capacity initial_capacity size ops r :
  run initial_capacity (fresh size) ops = Ok (Some r) ->
  0 <= nodes_len r <= nodes_capacity r /\ ring_size r = size /\ in_bounds r.
Proof.
  intros H. apply run_ring_inv in H as (r' & [= <-] & Hinv & Hs);
    [| apply fresh_ring_inv].
  split; [| split; [exact Hs | apply ring_inv_in_bounds, Hinv]].
  unfold ring_inv in Hinv. destruct (nodes r); lia.
Qed.

(** ** Where the operations keep their contract *)

Lemma store_Some (b : buffer) i x :
  0 <= i < Z.of_nat (length b) ->
  store (Some b) i x = Ok (Some (<[Z.to_nat i := x]> b)).
Proof.
  intros Hi. unfold store.
  destruct (Z.leb_spec 0 i); [| lia].
  destruct (Z.ltb_spec i (Z.of_nat (length b))); [reflexivity | lia].
Qed.

(** The copy loop of the resize path of insert: the slots of [old] below
    [idx] keep their index, the others move one slot up, and nothing below
    the first slot written is touched. *)
Lemma grow_copy (old : buffer) (idx cap : Z) (n : nat) :
  cap <= Z.of_nat (length old) ->
  forall (k : Z) (b : buffer),
    0 <= k -> k + Z.of_nat n <= cap -> cap < Z.of_nat (length b) ->
    exists b' : buffer,
      for_loop n k 1
        (fun i q =>
           x ← load (Some old) i;
           store q (if (i >=? idx) && (i <? cap) then i + 1 else i) x)
        (Some b) = Ok (Some b') /\
      length b' = length b /\
      (forall j, k <= j < k + Z.of_nat n ->
         b' !! Z.to_nat (if j <? idx then j else j + 1) = old !! Z.to_nat j) /\
      (forall m : nat, Z.of_nat m < (if k <? idx then k else k + 1) ->
         b' !! m = b !! m).
Proof.
  intros Hold. induction n as [|n IH]; intros k b Hk Hn Hb; cbn [for_loop].
  - exists b. split; [reflexivity |]. split; [reflexivity |].
    split; [intros j Hj; lia | reflexivity].
  - destruct (load_in_range old k ltac:(lia)) as (x & Hx & ->). rewrite bind_Ok.
    set (t := if (k >=? idx) && (k <? cap) then k + 1 else k).
    assert (t = if k <? idx then k else k + 1) as Ht.
    { unfold t. destruct (Z.geb_spec k idx), (Z.ltb_spec k cap),
        (Z.ltb_spec k idx); simpl; lia. }
    assert (0 <= t < Z.of_nat (length b)) as Htb.
    { rewrite Ht. destruct (Z.ltb_spec k idx); lia. }
    rewrite (store_Some b t x Htb). rewrite bind_Ok.
    destruct (IH (k + 1) (<[Z.to_nat t := x]> b)) as (b' & Hrun & Hlen & Hcopy & Hkeep);
      [lia | lia | rewrite length_insert; lia |].
    exists b'. split; [exact Hrun |]. split; [rewrite Hlen; apply length_insert |].
    split.
    + intros j Hj. destruct (Z.eq_dec j k) as [->|Hjk].
      * rewrite <- Ht. rewrite Hkeep.
        -- rewrite list_lookup_insert_eq by lia. symmetry. exact Hx.
        -- rewrite Ht. destruct (Z.ltb_spec k idx), (Z.ltb_spec (k + 1) idx); lia.
      * apply Hcopy. lia.
    + intros m Hm. rewrite Hkeep.
      * apply list_lookup_insert_ne. rewrite Ht. lia.
      * destruct (Z.ltb_spec k idx), (Z.ltb_spec (k + 1) idx); lia.
Qed.

Section inserted.

Context {A : Type}.
Implicit Types (l : list A) (x : A).

(** Reading the list that has [x] put in at [idx]. *)
Lemma lookup_inserted l (idx m : nat) x :
  (idx <= length l)%nat ->
  (take idx l ++ x :: drop idx l) !! m =
    if decide (m < idx)%nat then l !! m
    else if decide (m = idx) then Some x else l !! (m - 1)%nat.
Proof.
  intros Hidx.
  assert (length (take idx l) = idx) as Ht by (rewrite length_take; lia).
  destruct (decide (m < idx)%nat) as [Hlt|Hge].
  - rewrite lookup_app_l by lia. apply lookup_take_lt. exact Hlt.
  - rewrite lookup_app_r by lia. rewrite Ht.
    destruct (decide (m = idx)) as [->|Hne].
    + rewrite Nat.sub_diag. reflexivity.
    + rewrite lookup_cons_ne_0 by lia. rewrite lookup_drop. f_equal. lia.
Qed.

End inserted.

(** Putting a node in at its lower bound keeps a sorted list sorted. *)
Lemma sorted_inserted l (idx : nat) x :
  sorted l -> (idx <= length l)%nat ->
  (forall (j : nat) n, l !! j = Some n -> (j < idx)%nat -> position n < position x) ->
  (forall (j : nat) n, l !! j = Some n -> (idx <= j)%nat -> position x < position n) ->
  sorted (take idx l ++ x :: drop idx l).
Proof.
  intros Hs Hidx Hleft Hright i a b Ha Hb.
  rewrite lookup_inserted in Ha, Hb by exact Hidx.
  repeat case_decide; simplify_eq; try lia.
  - exact (Hs i a b Ha Hb).
  - exact (Hleft i a Ha ltac:(lia)).
  - apply (Hright idx b); [| lia]. rewrite <- Hb. f_equal. lia.
  - apply (Hs (i - 1)%nat a b Ha). rewrite <- Hb. f_equal. lia.
Qed.

Lemma to_int_Ok x : - INT_MAX - 1 <= x <= INT_MAX -> to_int x = Ok x.
Proof.
  intros Hx. unfold to_int.
  destruct (Z.leb_spec (- INT_MAX - 1) x); [| lia].
  destruct (Z.leb_spec x INT_MAX); [reflexivity | lia].
Qed.

(** Where insert is right.  On a sorted ring with a buffer of at least one
    slot, a free position and a successful allocation, insert does what its
    contract says when it reallocates (count equal to capacity), and when the
    new position is above every entry (it is appended): the new node is put
    in at its lower bound, the entries before it stay, the entries from it
    on move one slot up, and the array is still sorted. *)
Lemma insert_node_grow_or_append initial_capacity (r : ConsistentHasher)
    (h : ConsistentHasherHash) :
  ring_size r <> 0 -> ring_inv r -> nodes r <> None -> sorted (entries r) ->
  (forall n, n ∈ entries r -> position n <> h mod ring_size r) ->
  1 <= nodes_capacity r -> nodes_capacity r * 2 <= INT_MAX ->
  (nodes_capacity r = nodes_len r \/
   forall n, n ∈ entries r -> position n < h mod ring_size r) ->
  exists r' (idx : nat),
    consistent_hasher_insert_node initial_capacity true (Some r) h
      = Ok (CONSISTENT_HASHER_OK, Some r') /\
    ring_size r' = ring_size r /\
    nodes_len r' = nodes_len r + 1 /\
    entries r' = take idx (entries r)
                 ++ mkNode h (h mod ring_size r) :: drop idx (entries r) /\
    sorted (entries r').
Proof.
  intros Hsize Hinv Hnn Hsorted Habs Hcap1 Hmax Hpath.
  destruct (nodes r) as [b|] eqn:Hb; [clear Hnn | contradiction].
  pose proof Hinv as Hinv'. unfold ring_inv in Hinv'. rewrite Hb in Hinv'.
  destruct Hinv' as [Hblen Hlen].
  destruct (binary_search_sorted r h Hsize (ring_inv_in_bounds r Hinv)
              ltac:(lia) Hsorted) as (found & i & Hrun & Hi & Hleft & Hres).
  destruct found.
  { destruct Hres as (k & n & _ & Hn & Hp). exfalso.
    apply (Habs n); [eapply list_elem_of_lookup_2; exact Hn | exact Hp]. }
  set (pos := h mod ring_size r) in *. set (new := mkNode h pos).
  assert (length (entries r) = Z.to_nat (nodes_len r)) as Hel.
  { unfold entries. rewrite Hb, length_take. lia. }
  assert (sorted (take (Z.to_nat i) (entries r) ++ new :: drop (Z.to_nat i) (entries r)))
    as Hs'.
  { apply sorted_inserted; [exact Hsorted | lia | |].
    - intros j n Hn Hj. apply (Hleft j n Hn). lia.
    - intros j n Hn Hj. apply (Hres j n Hn). lia. }
  unfold consistent_hasher_insert_node.
  rewrite umod_nonzero by exact Hsize. rewrite bind_Ok. rewrite Hb, Hrun, bind_Ok.
  cbv iota beta. fold pos. fold new.
  destruct (Z.eqb_spec (nodes_capacity r) (nodes_len r)) as [Hfull|Hroom].
  - (* the resize path *)
    rewrite (to_int_Ok (nodes_capacity r * 2)) by (unfold INT_MAX in *; lia).
    rewrite bind_Ok.
    unfold CONSISTENT_HASHER_CALLOC.
    destruct (grow_copy b i (nodes_capacity r) (Z.to_nat (nodes_capacity r))
                ltac:(lia) 0
                (replicate (Z.to_nat (nodes_capacity r * 2)) zero_node))
      as (b1 & Hloop & Hlen1 & Hcopy & _);
      [lia | lia | rewrite length_replicate; lia |].
    rewrite Hloop, bind_Ok. rewrite length_replicate in Hlen1.
    rewrite store_Some by lia. rewrite bind_Ok.
    rewrite to_int_Ok by (unfold INT_MAX in *; lia). rewrite bind_Ok.
    eexists. exists (Z.to_nat i). split; [reflexivity |].
    split; [reflexivity |]. split; [reflexivity |].
    assert (entries (mkRing (ring_size r) (Some (<[Z.to_nat i := new]> b1))
                            (nodes_len r + 1) (nodes_capacity r * 2))
            = take (Z.to_nat i) (entries r) ++ new :: drop (Z.to_nat i) (entries r))
      as ->; [| split; [reflexivity | exact Hs']].
    apply list_eq. intros m. rewrite lookup_inserted by lia.
    unfold entries. cbn [nodes nodes_len]. rewrite Hb.
    rewrite lookup_take. rewrite !lookup_take.
    repeat case_decide; try lia; subst.
    + rewrite list_lookup_insert_ne by lia.
      specialize (Hcopy (Z.of_nat m) ltac:(lia)).
      destruct (Z.ltb_spec (Z.of_nat m) i); [| lia].
      rewrite Nat2Z.id in Hcopy. exact Hcopy.
    + rewrite list_lookup_insert_eq by lia. reflexivity.
    + rewrite list_lookup_insert_ne by lia.
      specialize (Hcopy (Z.of_nat (m - 1)) ltac:(lia)).
      destruct (Z.ltb_spec (Z.of_nat (m - 1)) i); [lia |].
      rewrite Nat2Z.id in Hcopy. rewrite <- Hcopy. f_equal. lia.
    + reflexivity.
  - (* the shift path, at the end of the array *)
    destruct Hpath as [Hfull|Habove]; [contradiction |].
    assert (i = nodes_len r) as ->.
    { destruct (Z.eq_dec i (nodes_len r)) as [|Hne]; [assumption | exfalso].
      destruct (lookup_lt_is_Some_2 (entries r) (Z.to_nat i)) as [n Hn]; [lia |].
      pose proof (Hres (Z.to_nat i) n Hn ltac:(lia)).
      pose proof (Habove n (list_elem_of_lookup_2 _ _ _ Hn)). lia. }
    replace (Z.to_nat (nodes_len r - 1 - (nodes_len r + 1))) with 0%nat by lia.
    cbn [for_loop]. rewrite bind_Ok.
    rewrite store_Some by lia. rewrite bind_Ok.
    rewrite to_int_Ok by (unfold INT_MAX in *; lia). rewrite bind_Ok.
    eexists. exists (Z.to_nat (nodes_len r)). split; [reflexivity |].
    split; [reflexivity |]. split; [reflexivity |].
    assert (entries (mkRing (ring_size r) (Some (<[Z.to_nat (nodes_len r) := new]> b))
                            (nodes_len r + 1) (nodes_capacity r))
            = take (Z.to_nat (nodes_len r)) (entries r)
              ++ new :: drop (Z.to_nat (nodes_len r)) (entries r))
      as ->; [| split; [reflexivity | exact Hs']].
    apply list_eq. intros m. rewrite lookup_inserted by lia.
    unfold entries. cbn [nodes nodes_len]. rewrite Hb.
    rewrite !lookup_take.
    repeat case_decide; try lia; subst.
    + rewrite list_lookup_insert_ne by lia. reflexivity.
    + rewrite list_lookup_insert_eq by lia. reflexivity.
    + reflexivity.
Qed.

(** The first insert into a ring without a buffer. *)
Lemma insert_node_first initial_capacity (r : ConsistentHasher)
    (h : ConsistentHasherHash) :
  ring_size r <> 0 -> nodes r = None -> 1 <= initial_capacity ->
  exists r',
    consistent_hasher_insert_node initial_capacity true (Some r) h
      = Ok (CONSISTENT_HASHER_OK, Some r') /\
    ring_size r' = ring_size r /\ nodes_len r' = 1 /\
    nodes_capacity r' = initial_capacity /\
    entries r' = [mkNode h (h mod ring_size r)].
Proof.
  intros Hsize Hb Hcap. unfold consistent_hasher_insert_node.
  rewrite umod_nonzero by exact Hsize. rewrite bind_Ok, Hb.
  unfold CONSISTENT_HASHER_CALLOC.
  rewrite store_Some by (rewrite length_replicate; lia). rewrite bind_Ok.
  eexists. split; [reflexivity |]. repeat split.
  unfold entries. cbn [nodes nodes_len].
  destruct (Z.to_nat initial_capacity) as [|c] eqn:Hc; [lia | reflexivity].
Qed.

(** X13.  Where resolve is right: on a sorted ring, an item that is on no node
    and not above all of them gets the node at the smallest position above it. *)
Lemma get_node_of_between_nodes (r : ConsistentHasher) (item : ConsistentHasherHash) :
  ring_size r <> 0 -> ring_inv r -> sorted (entries r) ->
  (forall n, n ∈ entries r -> position n <> item mod ring_size r) ->
  (exists n, n ∈ entries r /\ item mod ring_size r <= position n) ->
  exists (k : nat) owner,
    consistent_hasher_get_node_of (Some r) item = Ok (hash owner) /\
    entries r !! k = Some owner /\
    item mod ring_size r < position owner /\
    (forall (j : nat) n, entries r !! j = Some n -> (j < k)%nat ->
                         position n < item mod ring_size r).
Proof.
  intros Hsize Hinv Hsorted Habs (top & Htop & Hle).
  assert (0 <= nodes_len r) as Hlen.
  { unfold ring_inv in Hinv. destruct (nodes r); lia. }
  destruct (binary_search_sorted r item Hsize (ring_inv_in_bounds r Hinv)
              Hlen Hsorted) as (found & i & Hrun & Hi & Hleft & Hres).
  destruct found.
  { destruct Hres as (k & n & _ & Hn & Hp). exfalso.
    apply (Habs n); [eapply list_elem_of_lookup_2; exact Hn | exact Hp]. }
  set (pos := item mod ring_size r) in *.
  apply list_elem_of_lookup_1 in Htop as [t Ht].
  assert (i <= Z.of_nat t) as Hit.
  { destruct (Z.le_gt_cases i (Z.of_nat t)) as [|Hgt]; [assumption |].
    pose proof (Hleft t top Ht ltac:(lia)). lia. }
  pose proof (lookup_lt_Some _ _ _ Ht) as Htl.
  destruct (lookup_lt_is_Some_2 (entries r) (Z.to_nat i)) as [owner Ho]; [lia |].
  exists (Z.to_nat i), owner.
  assert (pos < position owner) as Hpo by (apply (Hres (Z.to_nat i) owner Ho); lia).
  split; [| split; [exact Ho | split; [exact Hpo |]]].
  - unfold consistent_hasher_get_node_of. rewrite Hrun, bind_Ok. cbv iota beta.
    rewrite umod_nonzero by exact Hsize. rewrite bind_Ok. fold pos.
    unfold entries in Ho. destruct (nodes r) as [b|]; [| discriminate Ho].
    apply lookup_take_Some in Ho as [Ho _].
    rewrite (load_Some b i owner) by (lia || exact Ho). rewrite bind_Ok.
    destruct (Z.gtb_spec pos (position owner)); [lia |].
    rewrite (load_Some b i owner) by (lia || exact Ho). reflexivity.
  - intros j n Hn Hj. apply (Hleft j n Hn). lia.
Qed.

(** On a sorted ring an insert at an occupied position is refused and the
    ring is left as it is, whatever the identifier. *)
Lemma insert_node_present initial_capacity calloc_ok (r : ConsistentHasher)
    (h : ConsistentHasherHash) :
  ring_size r <> 0 -> ring_inv r -> sorted (entries r) ->
  (exists n, n ∈ entries r /\ position n = h mod ring_size r) ->
  consistent_hasher_insert_node initial_capacity calloc_ok (Some r) h
  = Ok (CONSISTENT_HASHER_ERROR_NODE_PRESENT, Some r).
Proof.
  intros Hsize Hinv Hsorted (n & Hn & Hp).
  assert (0 <= nodes_len r) as Hlen.
  { unfold ring_inv in Hinv. destruct (nodes r); lia. }
  destruct (binary_search_sorted r h Hsize (ring_inv_in_bounds r Hinv)
              Hlen Hsorted) as (found & i & Hrun & Hi & Hleft & Hres).
  apply list_elem_of_lookup_1 in Hn as [k Hk].
  destruct found.
  - unfold consistent_hasher_insert_node.
    rewrite umod_nonzero by exact Hsize. rewrite bind_Ok.
    destruct (nodes r) as [b|] eqn:Hb.
    + rewrite Hrun. reflexivity.
    + unfold entries in Hk. rewrite Hb in Hk. discriminate Hk.
  - exfalso. destruct (Z.lt_ge_cases (Z.of_nat k) i) as [Hlt|Hge].
    + pose proof (Hleft k n Hk Hlt). lia.
    + pose proof (Hres k n Hk Hge). lia.
Qed.

(** X9.  Collision rejection where the first insert is right (it reallocates,
    or appends): a second identifier with the same position is refused. *)
Lemma insert_node_collision initial_capacity calloc_ok (r : ConsistentHasher)
    (a b : ConsistentHasherHash) :
  ring_size r <> 0 -> ring_inv r -> nodes r <> None -> sorted (entries r) ->
  (forall n, n ∈ entries r -> position n <> a mod ring_size r) ->
  1 <= nodes_capacity r -> nodes_capacity r * 2 <= INT_MAX ->
  (nodes_capacity r = nodes_len r \/
   forall n, n ∈ entries r -> position n < a mod ring_size r) ->
  a mod ring_size r = b mod ring_size r ->
  exists r',
    consistent_hasher_insert_node initial_capacity true (Some r) a
      = Ok (CONSISTENT_HASHER_OK, Some r') /\
    consistent_hasher_insert_node initial_capacity calloc_ok (Some r') b
      = Ok (CONSISTENT_HASHER_ERROR_NODE_PRESENT, Some r').
Proof.
  intros Hsize Hinv Hnn Hsorted Habs Hcap Hmax Hpath Hab.
  destruct (insert_node_grow_or_append initial_capacity r a
              Hsize Hinv Hnn Hsorted Habs Hcap Hmax Hpath)
    as (r' & idx & Hins & Hsize' & Hlen' & Hent & Hsorted').
  exists r'. split; [exact Hins |].
  destruct (insert_node_ring_inv _ _ _ _ _ _ Hinv Hins) as (r1 & [= <-] & Hinv' & _).
  apply insert_node_present; [congruence | exact Hinv' | exact Hsorted' |].
  exists (mkNode a (a mod ring_size r)). split.
  - rewrite Hent. apply elem_of_app. right. apply list_elem_of_here.
  - rewrite Hsize'. exact Hab.
Qed.

(** * The properties of the specification, one by one *)

Ltac run_it := vm_compute; reflexivity.

(** C1 (defect of the code).  With the default initial capacity, on a fresh
    ring of size 1024, inserting 456 and then 123 takes the shift path of
    insert: its loop starts at [nodes_len - 1] and stops above [index + 1],
    so nothing moves, 123 overwrites 456 and the count grows over a slot that
    [calloc] zeroed.  The positions are then 123, 0: not ascending. *)
Theorem insert_shift_breaks_sortedness :
  run CONSISTENT_HASHER_INITIAL_CAPACITY (fresh 1024)
      [Insert 456 true; Insert 123 true] = Ok (Some ring_123_0) /\
  position <$> entries ring_123_0 = [123; 0] /\
  ~ sorted (entries ring_123_0).
Proof.
  split; [run_it |]. split; [run_it |].
  apply not_sortedb_not_sorted. run_it.
Qed.

(** C2 (defect of the code).  On the sorted array 123, 456, 924 the search
    for position 456 hits at the first midpoint, index 1, and reports the
    lower end of the window, [start = 0], where position 123 is. *)
Theorem binary_search_hit_reports_window_start :
  run CONSISTENT_HASHER_INITIAL_CAPACITY (fresh 1024)
      [Insert 123 true; Insert 456 true; Insert 924 true]
    = Ok (Some ring_123_456_924) /\
  sorted (entries ring_123_456_924) /\
  entries ring_123_456_924 !! 1%nat = Some (at_ 456) /\
  entries ring_123_456_924 !! 0%nat = Some (at_ 123) /\
  _consistent_hasher_binary_search (Some ring_123_456_924) 456 = Ok (true, 0).
Proof.
  split; [run_it |]. split; [apply sortedb_sorted; run_it |].
  repeat split; run_it.
Qed.

(** C3 (defect of the code).  The ring that holds 456 alone is sorted, has
    room (count 1, capacity 8) and no entry at position 123.  Insert of 123
    returns [CONSISTENT_HASHER_OK] through the shift path, but 456 is no
    longer an entry, a zeroed slot is, and the array is not sorted. *)
Theorem insert_shift_path_loses_entry :
  run CONSISTENT_HASHER_INITIAL_CAPACITY (fresh 1024) [Insert 456 true]
    = Ok (Some ring_456) /\
  sorted (entries ring_456) /\
  nodes_capacity ring_456 <> nodes_len ring_456 /\
  position <$> entries ring_456 = [456] /\
  123 mod ring_size ring_456 = 123 /\
  consistent_hasher_insert_node CONSISTENT_HASHER_INITIAL_CAPACITY true
      (Some ring_456) 123 = Ok (CONSISTENT_HASHER_OK, Some ring_123_0) /\
  entries ring_123_0 = [at_ 123; zero_node] /\
  (at_ 456 ∉ entries ring_123_0) /\
  ~ sorted (entries ring_123_0).
Proof.
  split; [run_it |]. split; [apply sortedb_sorted; run_it |].
  split; [discriminate |]. split; [run_it |]. split; [run_it |].
  split; [run_it |]. split; [run_it |]. split.
  - change (entries ring_123_0) with [at_ 123; zero_node].
    intros Hin. repeat (apply elem_of_cons in Hin as [Hin|Hin]; [discriminate |]).
    inversion Hin.
  - apply not_sortedb_not_sorted. run_it.
Qed.

(** C4 (defect of the code).  Shift path: on the sorted ring 100, 200, 300
    (capacity 8) delete of 200 removes index 0, the window start that the
    search reported, and its loop stops one slot early: the entries become
    200, 200, and 100 and 300 are gone.  Shrink path: on the same entries
    with capacity 4 the delete of 200 removes 100. *)
Theorem delete_removes_other_entries :
  (run CONSISTENT_HASHER_INITIAL_CAPACITY (fresh 1024)
       [Insert 100 true; Insert 200 true; Insert 300 true]
     = Ok (Some ring_100_200_300) /\
   sorted (entries ring_100_200_300) /\
   consistent_hasher_delete_node true (Some ring_100_200_300) 200
     = Ok (CONSISTENT_HASHER_OK, Some ring_200_200) /\
   entries ring_200_200 = [at_ 200; at_ 200]) /\
  (run 1 (fresh 1024) [Insert 100 true; Insert 300 true; Insert 200 true]
     = Ok (Some tight_100_200_300) /\
   sorted (entries tight_100_200_300) /\
   consistent_hasher_delete_node true (Some tight_100_200_300) 200
     = Ok (CONSISTENT_HASHER_OK, Some tight_200_300) /\
   entries tight_200_300 = [at_ 200; at_ 300]).
Proof.
  split; (split; [run_it |]); (split; [apply sortedb_sorted; run_it |]);
    split; run_it.
Qed.

(** C5 (defect of the code).  On the sorted ring 100, 200, 300 the item 200
    sits on a node, the search reports index 0 and resolve answers 100, not
    200.  After delete of 300 the slot behind the two entries still reads
    300: item 250 is above every node, yet resolve compares it with that
    slot and answers 300, a node that is gone, not the smallest node 100.
    When the buffer is full the slot behind the entries does not exist. *)
Theorem resolve_misses_owner :
  sorted (entries ring_100_200_300) /\
  consistent_hasher_get_node_of (Some ring_100_200_300) 200 = Ok 100 /\
  run CONSISTENT_HASHER_INITIAL_CAPACITY (fresh 1024)
      [Insert 100 true; Insert 200 true; Insert 300 true; Delete 300 true]
    = Ok (Some ring_100_200_stale) /\
  entries ring_100_200_stale = [at_ 100; at_ 200] /\
  consistent_hasher_get_node_of (Some ring_100_200_stale) 250 = Ok 300 /\
  run 1 (fresh 1024) [Insert 100 true] = Ok (Some tight_100) /\
  consistent_hasher_get_node_of (Some tight_100) 250 = Fault OutOfBounds.
Proof.
  split; [apply sortedb_sorted; run_it |]. repeat split; run_it.
Qed.

(** C6, the counterexample.  1147 was never inserted and no node holds it,
    but 1147 mod 1024 = 123 is the position of node 123: the delete returns
    [CONSISTENT_HASHER_OK], removes that node and the count drops from 1
    to 0. *)
Lemma delete_of_colliding_identifier_removes_node :
  run CONSISTENT_HASHER_INITIAL_CAPACITY (fresh 1024) [Insert 123 true]
    = Ok (Some ring_123) /\
  hash <$> entries ring_123 = [123] /\
  consistent_hasher_delete_node true (Some ring_123) 1147
    = Ok (CONSISTENT_HASHER_OK, Some ring_123_gone) /\
  nodes_len ring_123 = 1 /\ nodes_len ring_123_gone = 0 /\
  entries ring_123_gone = [] /\
  ~ (exists r',
       consistent_hasher_delete_node true (Some ring_123) 1147
         = Ok (CONSISTENT_HASHER_OK, Some r') /\
       nodes_len r' = nodes_len ring_123 /\
       entries r' = entries ring_123).
Proof.
  repeat (split; [run_it |]).
  intros (r' & H & Hlen & _). vm_compute in H. injection H as <-.
  discriminate Hlen.
Qed.

(** C6, as amended.  On a ring of non-zero size whose entries are within its
    buffer (every ring built by the operations is), deleting an identifier
    whose position [identifier mod ring_size] no entry holds returns
    [CONSISTENT_HASHER_OK] and leaves the whole ring, its count and all its
    entries, as it was. *)
Theorem delete_absent_position_is_noop
    (r : ConsistentHasher) (h : ConsistentHasherHash) (calloc_ok : bool) :
  ring_size r <> 0 -> in_bounds r ->
  (forall n, n ∈ entries r -> position n <> h mod ring_size r) ->
  consistent_hasher_delete_node calloc_ok (Some r) h
  = Ok (CONSISTENT_HASHER_OK, Some r).
Proof.
  intros Hsize Hin Habs.
  destruct (binary_search_absent r h Hsize Hin Habs) as [i Hi].
  unfold consistent_hasher_delete_node. rewrite Hi. reflexivity.
Qed.

(** The amended C6 at work: 456 is not a position of the ring that holds
    123, and deleting it changes nothing. *)
Lemma delete_absent_position_is_noop_witness :
  consistent_hasher_delete_node true (Some ring_123) 456
  = Ok (CONSISTENT_HASHER_OK, Some ring_123).
Proof.
  apply (delete_absent_position_is_noop ring_123 456 true).
  - discriminate.
  - vm_compute. discriminate.
  - intros n Hn. change (entries ring_123) with [at_ 123] in Hn.
    apply list_elem_of_singleton in Hn as ->. discriminate.
Defined.

(** C7 (defect of the code).  The ring of C1, entries 123 and a zeroed slot,
    has no entry at position 50.  Insert of 50 succeeds, again through the
    shift path, and leaves the positions 50, 0, 0.  Bisection for position
    50 = 1074 mod 1024 then only probes the zeroed slots: insert of 1074
    returns [CONSISTENT_HASHER_OK] and the ring grows to four entries. *)
Theorem colliding_insert_is_accepted :
  run CONSISTENT_HASHER_INITIAL_CAPACITY (fresh 1024)
      [Insert 456 true; Insert 123 true] = Ok (Some ring_123_0) /\
  position <$> entries ring_123_0 = [123; 0] /\
  50 mod ring_size ring_123_0 = 50 /\
  1074 mod ring_size ring_123_0 = 50 /\
  consistent_hasher_insert_node CONSISTENT_HASHER_INITIAL_CAPACITY true
      (Some ring_123_0) 50 = Ok (CONSISTENT_HASHER_OK, Some ring_50_0_0) /\
  consistent_hasher_insert_node CONSISTENT_HASHER_INITIAL_CAPACITY true
      (Some ring_50_0_0) 1074 = Ok (CONSISTENT_HASHER_OK, Some ring_50_0_0_50) /\
  nodes_len ring_50_0_0 = 3 /\ nodes_len ring_50_0_0_50 = 4.
Proof.
  repeat split; run_it.
Qed.

(** C8 (defect of the code).  With an initial capacity of 1, as [test.c] is
    built, deleting the only node meets [0 == 1 / 2] and shrinks the buffer
    to no slot at all, capacity 0.  The next insert finds count equal to
    capacity, doubles 0 to 0 and writes [nodes[0]] outside of the buffer.
    With the default capacity of 8 the same ring is reached by inserting 1
    to 5 and deleting them again. *)
Theorem insert_into_drained_ring_overflows :
  run 1 (fresh 1024) [Insert 5 true; Delete 5 true] = Ok (Some drained) /\
  run CONSISTENT_HASHER_INITIAL_CAPACITY (fresh 1024)
      [Insert 1 true; Insert 2 true; Insert 3 true; Insert 4 true; Insert 5 true;
       Delete 5 true; Delete 4 true; Delete 3 true; Delete 2 true; Delete 1 true]
    = Ok (Some drained) /\
  nodes drained = Some [] /\ nodes_capacity drained = 0 /\
  forall initial_capacity,
    consistent_hasher_insert_node initial_capacity true (Some drained) 5
    = Fault OutOfBounds.
Proof. repeat split; run_it. Qed.

(** C9 (defect of the code).  Built with an initial capacity of 1, the ring
    100, 300 is full.  Insert of 200 reallocates and gives 100, 200, 300.
    Delete of 200 then removes 100, and the second insert of 200 is refused
    as present: the round trip ends on 200, 300. *)
Theorem insert_delete_insert_changes_the_nodes :
  run 1 (fresh 1024) [Insert 100 true; Insert 300 true] = Ok (Some tight_100_300) /\
  position <$> entries tight_100_300 = [100; 300] /\
  200 mod ring_size tight_100_300 = 200 /\
  run 1 (Some tight_100_300) [Insert 200 true] = Ok (Some tight_100_200_300) /\
  run 1 (Some tight_100_300) [Insert 200 true; Delete 200 true; Insert 200 true]
    = Ok (Some tight_200_300) /\
  entries tight_100_200_300 = [at_ 100; at_ 200; at_ 300] /\
  entries tight_200_300 = [at_ 200; at_ 300] /\
  ~ (entries tight_200_300 ≡ₚ entries tight_100_200_300).
Proof.
  repeat split; try run_it.
  intros HP. apply Permutation_length in HP. discriminate HP.
Qed.

(** C10.  [consistent_hasher_init] stores any ring size, zero included,
    without a check.  On a ring of size zero the locator, insert, delete and
    resolve all stop on the division by zero of [hash % ring_size]; on a ring
    of positive size none of them ever does: a positive ring size is the
    precondition under which the division is safe. *)
Theorem division_fault_iff_ring_size_zero
    (r : ConsistentHasher) (h : ConsistentHasherHash)
    (initial_capacity : Z) (calloc_ok : bool) :
  (forall size, consistent_hasher_init (Some r) size = Some (mkRing size None 0 0)) /\
  (ring_size r = 0 ->
     _consistent_hasher_binary_search (Some r) h = Fault DivByZero /\
     consistent_hasher_insert_node initial_capacity calloc_ok (Some r) h
       = Fault DivByZero /\
     consistent_hasher_delete_node calloc_ok (Some r) h = Fault DivByZero /\
     consistent_hasher_get_node_of (Some r) h = Fault DivByZero) /\
  (0 < ring_size r ->
     no_div (_consistent_hasher_binary_search (Some r) h) /\
     no_div (consistent_hasher_insert_node initial_capacity calloc_ok (Some r) h) /\
     no_div (consistent_hasher_delete_node calloc_ok (Some r) h) /\
     no_div (consistent_hasher_get_node_of (Some r) h)).
Proof.
  split; [reflexivity |]. split.
  - intros Hz.
    unfold consistent_hasher_insert_node, consistent_hasher_delete_node,
      consistent_hasher_get_node_of, _consistent_hasher_binary_search.
    rewrite Hz. rewrite umod_zero. repeat split; reflexivity.
  - intros Hpos. assert (ring_size r <> 0) as Hne by lia.
    repeat split.
    + apply no_div_binary_search, Hne.
    + apply no_div_insert_node, Hne.
    + apply no_div_delete_node, Hne.
    + apply no_div_get_node_of, Hne.
Qed.

(** C10 at work: on the ring that [consistent_hasher_init] makes for size 0
    every operation stops on the division, and on the ring of size 1024 that
    holds 123 none does. *)
Lemma division_fault_iff_ring_size_zero_witness :
  (_consistent_hasher_binary_search (Some ring_of_size_0) 1147 = Fault DivByZero /\
   consistent_hasher_insert_node 8 true (Some ring_of_size_0) 1147
     = Fault DivByZero /\
   consistent_hasher_delete_node true (Some ring_of_size_0) 1147
     = Fault DivByZero /\
   consistent_hasher_get_node_of (Some ring_of_size_0) 1147 = Fault DivByZero) /\
  (no_div (_consistent_hasher_binary_search (Some ring_123) 1147) /\
   no_div (consistent_hasher_insert_node 8 true (Some ring_123) 1147) /\
   no_div (consistent_hasher_delete_node true (Some ring_123) 1147) /\
   no_div (consistent_hasher_get_node_of (Some ring_123) 1147)).
Proof.
  split.
  - apply (division_fault_iff_ring_size_zero ring_of_size_0 1147 8 true).
    reflexivity.
  - apply (division_fault_iff_ring_size_zero ring_123 1147 8 true).
    reflexivity.
Defined.

(** * Further properties of the operations *)

(** What the loop reports, on any buffer: the index stays within the window
    (one past its end at most), and a hit comes from a probe at or after the
    index that read the position looked for. *)
Lemma bsearch_loop_index (p : option buffer) (pos : Z) (fuel : nat) :
  forall start end_ found i,
    start <= end_ + 1 ->
    bsearch_loop fuel p pos start end_ (midpoint start end_) = Ok (found, i) ->
    start <= i <= end_ + 1 /\
    (found = true ->
     exists k n, i <= k <= end_ /\ load p k = Ok n /\ position n = pos).
Proof.
  induction fuel as [|fuel IH]; intros start end_ found i Hse H;
    cbn [bsearch_loop] in H.
  - destruct (Z.geb_spec end_ start); [discriminate |].
    assert (end_ = start - 1) as -> by lia. rewrite midpoint_empty in H.
    injection H as <- <-. split; [lia | discriminate].
  - destruct (Z.geb_spec end_ start) as [Hge|Hlt].
    2:{ assert (end_ = start - 1) as -> by lia. rewrite midpoint_empty in H.
        injection H as <- <-. split; [lia | discriminate]. }
    pose proof (midpoint_bounds start end_ ltac:(lia)) as Hmid.
    set (mid := midpoint start end_) in *.
    inv_bind H as n Hn.
    destruct (Z.eqb_spec (position n) pos) as [Heq|Hne].
    { injection H as <- <-. split; [lia |]. intros _.
      exists mid, n. repeat split; [lia | lia | exact Hn | exact Heq]. }
    destruct (Z.gtb_spec (position n) pos).
    + apply IH in H as [Hi Hhit]; [| lia]. split; [lia |].
      intros Hf. destruct (Hhit Hf) as (k & m & Hk & Hm & Hp).
      exists k, m. repeat split; [lia | lia | exact Hm | exact Hp].
    + destruct (Z.ltb_spec (position n) pos); [| lia].
      apply IH in H as [Hi Hhit]; [| lia]. split; [lia |].
      intros Hf. destruct (Hhit Hf) as (k & m & Hk & Hm & Hp).
      exists k, m. repeat split; [lia | lia | exact Hm | exact Hp].
Qed.

Lemma load_entries r k n :
  load (nodes r) k = Ok n -> 0 <= k < nodes_len r ->
  entries r !! Z.to_nat k = Some n.
Proof.
  unfold load, entries. destruct (nodes r) as [b|]; [| discriminate].
  destruct (Z.leb_spec 0 k); [| discriminate].
  destruct (b !! Z.to_nat k) as [x|] eqn:Hx; [| discriminate].
  intros [= <-] Hk. rewrite lookup_take_lt by lia. exact Hx.
Qed.

(** X1.  The locator on any ring whose entries are within its buffer, sorted
    or not. *)
Theorem binary_search_any_ring (r : ConsistentHasher) (h : ConsistentHasherHash) :
  ring_size r <> 0 -> in_bounds r -> 0 <= nodes_len r ->
  exists found i,
    _consistent_hasher_binary_search (Some r) h = Ok (found, i) /\
    0 <= i <= nodes_len r /\
    (found = true ->
     exists (k : nat) n, i <= Z.of_nat k /\ entries r !! k = Some n /\
                         position n = h mod ring_size r) /\
    ((forall n, n ∈ entries r -> position n <> h mod ring_size r) ->
     found = false).
Proof.
  intros Hsize Hin Hlen.
  destruct (binary_search_returns r h Hsize Hin) as [[found i] Hrun].
  exists found, i. split; [exact Hrun |].
  unfold _consistent_hasher_binary_search in Hrun.
  rewrite umod_nonzero in Hrun by exact Hsize. rewrite bind_Ok in Hrun.
  apply bsearch_loop_index in Hrun as [Hi Hhit]; [| lia].
  assert (found = true ->
          exists (k : nat) n, i <= Z.of_nat k /\ entries r !! k = Some n /\
                              position n = h mod ring_size r) as Hsound.
  { intros Hf. destruct (Hhit Hf) as (k & n & Hk & Hn & Hp).
    exists (Z.to_nat k), n. split; [lia |]. split; [| exact Hp].
    apply load_entries; [exact Hn | lia]. }
  split; [lia |]. split; [exact Hsound |].
  intros Habs. destruct found; [exfalso | reflexivity].
  destruct (Hsound eq_refl) as (k & n & _ & Hn & Hp).
  apply (Habs n); [eapply list_elem_of_lookup_2; exact Hn | exact Hp].
Qed.

Lemma umod_inv h m pos : umod h m = Ok pos -> m <> 0 /\ pos = h mod m.
Proof.
  unfold umod. destruct (Z.eqb_spec m 0); [discriminate |].
  intros [= <-]. split; [assumption | reflexivity].
Qed.

(** A hit of the locator, on any ring: some entry holds the position. *)
Lemma binary_search_hit r h i :
  _consistent_hasher_binary_search (Some r) h = Ok (true, i) ->
  ring_size r <> 0 /\ 1 <= nodes_len r /\
  exists (k : nat) n, 0 <= i <= Z.of_nat k /\ entries r !! k = Some n /\
                      position n = h mod ring_size r.
Proof.
  intros H. pose proof (binary_search_found_nonempty r h i H) as Hlen.
  unfold _consistent_hasher_binary_search in H. inv_bind H as pos Hpos.
  apply umod_inv in Hpos as [Hsize ->].
  apply bsearch_loop_index in H as [Hi Hhit]; [| lia].
  destruct (Hhit eq_refl) as (k & n & Hk & Hn & Hp).
  split; [exact Hsize |]. split; [exact Hlen |].
  exists (Z.to_nat k), n. split; [lia |]. split; [| exact Hp].
  apply load_entries; [exact Hn | lia].
Qed.

(** X3.  Every return of insert that is not a success leaves the ring as it
    was: a refusal means that an entry holds the position, an allocation error
    that the allocator failed on one of the two allocating paths. A ring that
    is not null never gives [CONSISTENT_HASHER_ERROR_IS_NULL]. *)
Theorem insert_node_error initial_capacity calloc_ok (r : ConsistentHasher)
    (h : ConsistentHasherHash) e ch' :
  consistent_hasher_insert_node initial_capacity calloc_ok (Some r) h = Ok (e, ch') ->
  e <> CONSISTENT_HASHER_OK ->
  ch' = Some r /\
  e <> CONSISTENT_HASHER_ERROR_IS_NULL /\
  (e = CONSISTENT_HASHER_ERROR_NODE_PRESENT ->
   exists n, n ∈ entries r /\ position n = h mod ring_size r) /\
  (e = CONSISTENT_HASHER_ERROR_ALLOCATION ->
   calloc_ok = false /\
   (nodes r = None \/ nodes_capacity r = nodes_len r)).
Proof.
  intros H He. unfold consistent_hasher_insert_node in H.
  inv_bind H as pos Hpos. destruct (nodes r) as [b|] eqn:Hb.
  - inv_bind H as fi Hfi. destruct fi as [found index]. destruct found.
    + injection H as <- <-. split; [reflexivity |]. split; [discriminate |].
      split; [| discriminate]. intros _.
      destruct (binary_search_hit r h index Hfi) as (_ & _ & k & n & _ & Hn & Hp).
      exists n. split; [eapply list_elem_of_lookup_2; exact Hn | exact Hp].
    + destruct (Z.eqb_spec (nodes_capacity r) (nodes_len r)) as [Hfull|Hroom].
      * inv_bind H as cap' Hcap'.
        destruct calloc_ok; simpl in H.
        -- inv_bind H as q1 Hq1. inv_bind H as q2 Hq2. inv_bind H as len' Hlen'.
           injection H as <- <-. contradiction.
        -- injection H as <- <-. split; [reflexivity |]. split; [discriminate |].
           split; [discriminate |]. intros _. split; [reflexivity | right; exact Hfull].
      * inv_bind H as q1 Hq1. inv_bind H as q2 Hq2. inv_bind H as len' Hlen'.
        injection H as <- <-. contradiction.
  - destruct calloc_ok; simpl in H.
    + inv_bind H as q1 Hq1. injection H as <- <-. contradiction.
    + injection H as <- <-. split; [reflexivity |]. split; [discriminate |].
      split; [discriminate |]. intros _. split; [reflexivity | left; reflexivity].
Qed.

(** The index of a miss is never negative when the store at it succeeds,
    and never above the count. *)
Lemma binary_search_miss_index r h i :
  _consistent_hasher_binary_search (Some r) h = Ok (false, i) ->
  0 <= i -> i <= nodes_len r.
Proof.
  intros H Hi. unfold _consistent_hasher_binary_search in H.
  inv_bind H as pos Hpos.
  destruct (Z.le_gt_cases 0 (nodes_len r)) as [Hlen|Hneg].
  - apply bsearch_loop_index in H as [Hb _]; lia.
  - exfalso. assert (midpoint 0 (nodes_len r - 1) < 0) as Hm.
    { unfold midpoint. rewrite Z.add_0_r, Z.sub_0_r.
      replace (nodes_len r - 1) with (- (1 - nodes_len r)) by lia.
      rewrite Z.quot_opp_l by lia. rewrite Z.quot_div_nonneg by lia.
      assert (1 <= (1 - nodes_len r) / 2); [| lia].
      apply Z.div_le_lower_bound; lia. }
    destruct (Z.to_nat (nodes_len r)); cbn [bsearch_loop] in H;
      destruct (Z.geb_spec (nodes_len r - 1) 0); try lia;
      injection H as <-; lia.
Qed.

(** The counters after a successful insert. *)
Lemma insert_node_counts initial_capacity calloc_ok (r : ConsistentHasher)
    (h : ConsistentHasherHash) ch' :
  consistent_hasher_insert_node initial_capacity calloc_ok (Some r) h
    = Ok (CONSISTENT_HASHER_OK, ch') ->
  exists r',
    ch' = Some r' /\ ring_size r' = ring_size r /\
    match nodes r with
    | None =>
        calloc_ok = true /\ nodes_len r' = 1 /\
        nodes_capacity r' = initial_capacity
    | Some _ =>
        nodes_len r' = nodes_len r + 1 /\
        (nodes_capacity r = nodes_len r /\ calloc_ok = true /\
         nodes_capacity r' = nodes_capacity r * 2 \/
         nodes_capacity r <> nodes_len r /\
         nodes_capacity r' = nodes_capacity r)
    end.
Proof.
  intros H. unfold consistent_hasher_insert_node in H.
  inv_bind H as pos Hpos. destruct (nodes r) as [b|] eqn:Hb.
  - inv_bind H as fi Hfi. destruct fi as [found index].
    destruct found; [discriminate |].
    destruct (Z.eqb_spec (nodes_capacity r) (nodes_len r)) as [Hfull|Hroom].
    + inv_bind H as cap' Hcap'. apply to_int_inv in Hcap' as [-> _].
      destruct calloc_ok; simpl in H; [| discriminate].
      inv_bind H as q1 Hq1. inv_bind H as q2 Hq2. inv_bind H as len' Hlen'.
      apply to_int_inv in Hlen' as [-> _]. injection H as <-.
      eexists. split; [reflexivity |]. split; [reflexivity |].
      cbn [nodes_len nodes_capacity]. split; [reflexivity |].
      left. repeat split. exact Hfull.
    + inv_bind H as q1 Hq1. inv_bind H as q2 Hq2. inv_bind H as len' Hlen'.
      apply to_int_inv in Hlen' as [-> _]. injection H as <-.
      eexists. split; [reflexivity |]. split; [reflexivity |].
      cbn [nodes_len nodes_capacity]. split; [reflexivity |].
      right. split; [exact Hroom | reflexivity].
  - destruct calloc_ok; simpl in H; [| discriminate].
    inv_bind H as q1 Hq1. injection H as <-.
    eexists. split; [reflexivity |]. split; [reflexivity |].
    cbn [nodes_len nodes_capacity]. repeat split.
Qed.

(** X4.  What a successful insert leaves: the ring size stays, the node with
    the identifier and its position is an entry, the count has grown by one
    (to one on the first allocation), and the capacity is the initial capacity
    after the first allocation, twice the old one when the buffer was full,
    and the old one otherwise. *)
Theorem insert_node_success initial_capacity calloc_ok (r : ConsistentHasher)
    (h : ConsistentHasherHash) ch' :
  consistent_hasher_insert_node initial_capacity calloc_ok (Some r) h
    = Ok (CONSISTENT_HASHER_OK, ch') ->
  exists r',
    ch' = Some r' /\ ring_size r' = ring_size r /\
    mkNode h (h mod ring_size r) ∈ entries r' /\
    match nodes r with
    | None =>
        calloc_ok = true /\ nodes_len r' = 1 /\
        nodes_capacity r' = initial_capacity
    | Some _ =>
        nodes_len r' = nodes_len r + 1 /\
        (nodes_capacity r = nodes_len r /\ calloc_ok = true /\
         nodes_capacity r' = nodes_capacity r * 2 \/
         nodes_capacity r <> nodes_len r /\
         nodes_capacity r' = nodes_capacity r)
    end.
Proof.
  intros H.
  destruct (insert_node_counts _ _ _ _ _ H) as (r' & -> & Hsize' & Hcounts).
  exists r'. split; [reflexivity |]. split; [exact Hsize' |].
  split; [| exact Hcounts].
  unfold consistent_hasher_insert_node in H.
  inv_bind H as pos Hpos. apply umod_inv in Hpos as [Hsize ->].
  set (new := mkNode h (h mod ring_size r)) in *.
  assert (forall (q q' : option buffer) i len cap,
            store q i new = Ok q' -> i <= len ->
            new ∈ entries (mkRing (ring_size r) q' (len + 1) cap)) as Hin.
  { intros q q' i len cap Hst Hi.
    apply store_inv in Hst as (b' & -> & Hb' & ->).
    unfold entries. cbn [nodes nodes_len].
    apply (list_elem_of_lookup_2 _ (Z.to_nat i)).
    rewrite lookup_take_lt by lia. apply list_lookup_insert_eq. lia. }
  destruct (nodes r) as [b|] eqn:Hb.
  - inv_bind H as fi Hfi. destruct fi as [found index].
    destruct found; [discriminate |].
    assert (forall q q', store q index new = Ok q' -> index <= nodes_len r) as Hidx.
    { intros q q' Hst. apply store_inv in Hst as (b' & _ & Hi & _).
      apply (binary_search_miss_index r h index Hfi). lia. }
    destruct (Z.eqb_spec (nodes_capacity r) (nodes_len r)) as [Hfull|Hroom].
    + inv_bind H as cap' Hcap'. apply to_int_inv in Hcap' as [-> _].
      destruct calloc_ok; simpl in H; [| discriminate].
      inv_bind H as q1 Hq1. inv_bind H as q2 Hq2. inv_bind H as len' Hlen'.
      apply to_int_inv in Hlen' as [-> _]. injection H as <-.
      apply (Hin q1 q2 index); [exact Hq2 | exact (Hidx _ _ Hq2)].
    + inv_bind H as q1 Hq1. inv_bind H as q2 Hq2. inv_bind H as len' Hlen'.
      apply to_int_inv in Hlen' as [-> _]. injection H as <-.
      apply (Hin q1 q2 index); [exact Hq2 | exact (Hidx _ _ Hq2)].
  - destruct calloc_ok; simpl in H; [| discriminate].
    inv_bind H as q1 Hq1. injection H as <-.
    exact (Hin _ q1 0 0 initial_capacity Hq1 ltac:(lia)).
Qed.

(** X5.  What delete can return on a ring that is not null. It is a success or
    an allocation error, never another code. An allocation error leaves the
    ring as it was and only arises on the shrink path. A success either leaves
    the ring as it was or takes exactly one off the count, and then the
    capacity becomes the new count when that is half of the capacity, and
    stays otherwise. The ring only changes when an entry holds the position. *)
Theorem delete_node_outcome calloc_ok (r : ConsistentHasher)
    (h : ConsistentHasherHash) e ch' :
  consistent_hasher_delete_node calloc_ok (Some r) h = Ok (e, ch') ->
  (e = CONSISTENT_HASHER_ERROR_ALLOCATION /\ ch' = Some r /\
   calloc_ok = false /\ nodes_len r - 1 = nodes_capacity r ÷ 2) \/
  (e = CONSISTENT_HASHER_OK /\ ch' = Some r) \/
  (e = CONSISTENT_HASHER_OK /\
   (exists n, n ∈ entries r /\ position n = h mod ring_size r) /\
   exists r',
     ch' = Some r' /\ ring_size r' = ring_size r /\
     nodes_len r' = nodes_len r - 1 /\ 0 <= nodes_len r' /\
     (nodes_len r - 1 = nodes_capacity r ÷ 2 /\ calloc_ok = true /\
      nodes_capacity r' = nodes_len r - 1 \/
      nodes_len r - 1 <> nodes_capacity r ÷ 2 /\
      nodes_capacity r' = nodes_capacity r)).
Proof.
  intros H. unfold consistent_hasher_delete_node in H.
  inv_bind H as fi Hfi. destruct fi as [found index].
  destruct found; simpl in H; [| injection H as <- <-; right; left; split; reflexivity].
  destruct (binary_search_hit r h index Hfi) as (_ & Hlen & k & n & _ & Hn & Hp).
  assert (exists n, n ∈ entries r /\ position n = h mod ring_size r) as Hpresent.
  { exists n. split; [eapply list_elem_of_lookup_2; exact Hn | exact Hp]. }
  destruct (Z.eqb_spec (nodes_len r - 1) (nodes_capacity r ÷ 2)) as [Hhalf|Hmore].
  - destruct calloc_ok; simpl in H.
    + inv_bind H as q1 Hq1. injection H as <- <-.
      right. right. split; [reflexivity |]. split; [exact Hpresent |].
      eexists. split; [reflexivity |]. cbn [ring_size nodes_len nodes_capacity].
      repeat split; [lia |]. left. repeat split. exact Hhalf.
    + injection H as <- <-. left. repeat split. exact Hhalf.
  - inv_bind H as q1 Hq1. injection H as <- <-.
    right. right. split; [reflexivity |]. split; [exact Hpresent |].
    eexists. split; [reflexivity |]. cbn [ring_size nodes_len nodes_capacity].
    repeat split; [lia |]. right. split; [exact Hmore | reflexivity].
Qed.

(** X2.  The locator on a sorted ring: the flag says whether an entry holds
    the position; the entries before the reported index are smaller; on a miss
    the entries from the index on are larger, so the index is where the
    position would be inserted. *)
Theorem binary_search_sorted_ring (r : ConsistentHasher) (h : ConsistentHasherHash) :
  ring_size r <> 0 -> in_bounds r -> 0 <= nodes_len r -> sorted (entries r) ->
  exists found i,
    _consistent_hasher_binary_search (Some r) h = Ok (found, i) /\
    0 <= i <= nodes_len r /\
    (found = true <-> exists n, n ∈ entries r /\ position n = h mod ring_size r) /\
    (forall (j : nat) n, entries r !! j = Some n -> Z.of_nat j < i ->
                         position n < h mod ring_size r) /\
    (found = false ->
     forall (j : nat) n, entries r !! j = Some n -> i <= Z.of_nat j ->
                         h mod ring_size r < position n).
Proof.
  intros Hsize Hin Hlen Hsorted.
  destruct (binary_search_sorted r h Hsize Hin Hlen Hsorted)
    as (found & i & Hrun & Hi & Hleft & Hres).
  exists found, i. split; [exact Hrun |]. split; [exact Hi |].
  split; [| split; [exact Hleft |]].
  - destruct found.
    + destruct Hres as (k & n & _ & Hn & Hp). split; [| reflexivity].
      intros _. exists n. split; [eapply list_elem_of_lookup_2; exact Hn | exact Hp].
    + split; [discriminate |]. intros (n & Hn & Hp). exfalso.
      apply list_elem_of_lookup_1 in Hn as [k Hk].
      destruct (Z.lt_ge_cases (Z.of_nat k) i) as [Hlt|Hge].
      * pose proof (Hleft k n Hk Hlt). lia.
      * pose proof (Hres k n Hk Hge). lia.
  - intros ->. exact Hres.
Qed.

(** X7.  An insert that reallocates or appends, on a sorted ring: the entries
    afterwards are the old entries and the new node, no more and no less, in
    ascending order of position. *)
Theorem insert_node_keeps_entries initial_capacity (r : ConsistentHasher)
    (h : ConsistentHasherHash) :
  ring_size r <> 0 -> ring_inv r -> nodes r <> None -> sorted (entries r) ->
  (forall n, n ∈ entries r -> position n <> h mod ring_size r) ->
  1 <= nodes_capacity r -> nodes_capacity r * 2 <= INT_MAX ->
  (nodes_capacity r = nodes_len r \/
   forall n, n ∈ entries r -> position n < h mod ring_size r) ->
  exists r',
    consistent_hasher_insert_node initial_capacity true (Some r) h
      = Ok (CONSISTENT_HASHER_OK, Some r') /\
    entries r' ≡ₚ mkNode h (h mod ring_size r) :: entries r /\
    sorted (entries r') /\
    ring_inv r'.
Proof.
  intros Hsize Hinv Hnn Hsorted Habs Hcap Hmax Hpath.
  destruct (insert_node_grow_or_append initial_capacity r h
              Hsize Hinv Hnn Hsorted Habs Hcap Hmax Hpath)
    as (r' & idx & Hins & _ & _ & Hent & Hsorted').
  exists r'. split; [exact Hins |]. split; [| split; [exact Hsorted' |]].
  - rewrite Hent. rewrite <- Permutation_middle. rewrite take_drop. reflexivity.
  - destruct (insert_node_ring_inv _ _ _ _ _ _ Hinv Hins) as (r1 & [= <-] & Hinv' & _).
    exact Hinv'.
Qed.

(** When the position looked for is that of the last entry of a sorted
    window, every probe before the hit moves [start], and the hit happens with
    [start] on the last index: the reported index is the index of the match. *)
Lemma bsearch_loop_last (b : buffer) (pos last : Z) (x : ConsistentHasherNode)
    (fuel : nat) :
  0 <= last -> b !! Z.to_nat last = Some x -> position x = pos ->
  (forall j n, 0 <= j < last -> b !! Z.to_nat j = Some n -> position n < pos) ->
  forall start,
    0 <= start <= last -> last - start + 1 <= Z.of_nat fuel ->
    bsearch_loop fuel (Some b) pos start last (midpoint start last)
    = Ok (true, last).
Proof.
  intros Hlast Hx Hpos Hbelow.
  induction fuel as [|fuel IH]; intros start Hs Hfuel; cbn [bsearch_loop].
  - lia.
  - destruct (Z.geb_spec last start) as [_|]; [| lia].
    pose proof (midpoint_bounds start last ltac:(lia)) as Hmid.
    destruct (Z.eq_dec (midpoint start last) last) as [Heq|Hne].
    + assert (start = last) as ->.
      { unfold midpoint in Heq. rewrite Z.quot_div_nonneg in Heq by lia.
        pose proof (Z.mul_div_le (last - start) 2 ltac:(lia)). lia. }
      rewrite Heq. rewrite (load_Some b last x) by (lia || exact Hx).
      rewrite bind_Ok. destruct (Z.eqb_spec (position x) pos); [reflexivity | lia].
    + set (mid := midpoint start last) in *.
      assert (Z.to_nat mid < length b)%nat as Hlt.
      { apply lookup_lt_Some in Hx. lia. }
      destruct (lookup_lt_is_Some_2 b (Z.to_nat mid) Hlt) as [n Hn].
      rewrite (load_Some b mid n) by (lia || exact Hn). rewrite bind_Ok.
      pose proof (Hbelow mid n ltac:(lia) Hn) as Hnp.
      destruct (Z.eqb_spec (position n) pos); [lia |].
      destruct (Z.gtb_spec (position n) pos); [lia |].
      destruct (Z.ltb_spec (position n) pos); [| lia].
      apply IH; lia.
Qed.

(** The copy loop of the shrink path of delete: slot [i] of the new buffer
    takes slot [i] of the old one below [idx] and slot [i + 1] from [idx]
    on. *)
Lemma shrink_copy (old : buffer) (idx : Z) (n : nat) :
  forall (k : Z) (b : buffer),
    0 <= k -> k + Z.of_nat n <= Z.of_nat (length b) ->
    k + Z.of_nat n < Z.of_nat (length old) ->
    exists b' : buffer,
      for_loop n k 1
        (fun i q =>
           x ← load (Some old) (if i <? idx then i else i + 1);
           store q i x)
        (Some b) = Ok (Some b') /\
      length b' = length b /\
      (forall j, k <= j < k + Z.of_nat n ->
         b' !! Z.to_nat j = old !! Z.to_nat (if j <? idx then j else j + 1)) /\
      (forall m : nat, Z.of_nat m < k -> b' !! m = b !! m).
Proof.
  induction n as [|n IH]; intros k b Hk Hb Hold; cbn [for_loop].
  - exists b. split; [reflexivity |]. split; [reflexivity |].
    split; [intros j Hj; lia | reflexivity].
  - destruct (load_in_range old (if k <? idx then k else k + 1)) as (x & Hx & ->).
    { destruct (Z.ltb_spec k idx); lia. }
    rewrite bind_Ok. rewrite (store_Some b k x) by lia. rewrite bind_Ok.
    destruct (IH (k + 1) (<[Z.to_nat k := x]> b)) as (b' & Hrun & Hlen & Hcopy & Hkeep);
      [lia | rewrite length_insert; lia | lia |].
    exists b'. split; [exact Hrun |]. split; [rewrite Hlen; apply length_insert |].
    split.
    + intros j Hj. destruct (Z.eq_dec j k) as [->|Hjk].
      * rewrite Hkeep by lia. rewrite list_lookup_insert_eq by lia.
        symmetry. exact Hx.
      * apply Hcopy. lia.
    + intros m Hm. rewrite Hkeep by lia. apply list_lookup_insert_ne. lia.
Qed.

Lemma sorted_take l (n : nat) : sorted l -> sorted (take n l).
Proof.
  intros Hs i a b Ha Hb.
  apply lookup_take_Some in Ha as [Ha _]. apply lookup_take_Some in Hb as [Hb _].
  exact (Hs i a b Ha Hb).
Qed.

(** Delete of the identifier at the largest position of a sorted ring takes
    the last entry off, on the shrink path and on the shift path. *)
Lemma delete_node_last (r : ConsistentHasher) (h : ConsistentHasherHash)
    (x : ConsistentHasherNode) :
  ring_size r <> 0 -> ring_inv r -> sorted (entries r) ->
  entries r !! Z.to_nat (nodes_len r - 1) = Some x ->
  position x = h mod ring_size r ->
  exists r',
    consistent_hasher_delete_node true (Some r) h
      = Ok (CONSISTENT_HASHER_OK, Some r') /\
    ring_size r' = ring_size r /\
    nodes_len r' = nodes_len r - 1 /\
    entries r' = take (Z.to_nat (nodes_len r - 1)) (entries r).
Proof.
  intros Hsize Hinv Hsorted Hx Hpos.
  pose proof Hinv as Hinv'. unfold ring_inv in Hinv'.
  pose proof Hx as Hx'. unfold entries in Hx'.
  destruct (nodes r) as [b|] eqn:Hb; [| discriminate Hx'].
  destruct Hinv' as [Hblen Hlen].
  apply lookup_take_Some in Hx' as [Hxb Hxl].
  assert (1 <= nodes_len r) as Hlen1 by lia.
  assert (_consistent_hasher_binary_search (Some r) h
          = Ok (true, nodes_len r - 1)) as Hrun.
  { unfold _consistent_hasher_binary_search.
    rewrite umod_nonzero by exact Hsize. rewrite bind_Ok, Hb.
    apply (bsearch_loop_last b _ _ x); [lia | exact Hxb | exact Hpos | | lia | lia].
    intros j n Hj Hn. rewrite <- Hpos.
    apply (sorted_lt (entries r) (Z.to_nat j) (Z.to_nat (nodes_len r - 1)) n x
             Hsorted); [lia | | exact Hx].
    unfold entries. rewrite Hb. rewrite lookup_take_lt by lia. exact Hn. }
  assert (take (Z.to_nat (nodes_len r - 1)) (entries r)
          = take (Z.to_nat (nodes_len r - 1)) b) as Htake.
  { unfold entries. rewrite Hb. rewrite take_take. f_equal. lia. }
  unfold consistent_hasher_delete_node. rewrite Hrun, bind_Ok. cbv iota beta.
  cbn [negb]. rewrite Hb.
  destruct (Z.eqb_spec (nodes_len r - 1) (nodes_capacity r ÷ 2)) as [Hhalf|Hmore].
  - unfold CONSISTENT_HASHER_CALLOC.
    destruct (shrink_copy b (nodes_len r - 1) (Z.to_nat (nodes_len r - 1)) 0
                (replicate (Z.to_nat (nodes_len r - 1)) zero_node))
      as (b' & Hloop & Hlen' & Hcopy & _);
      [lia | rewrite length_replicate; lia | lia |].
    rewrite Hloop, bind_Ok. rewrite length_replicate in Hlen'.
    eexists. split; [reflexivity |]. split; [reflexivity |].
    split; [reflexivity |]. rewrite Htake.
    unfold entries. cbn [nodes nodes_len].
    apply list_eq. intros m. rewrite !lookup_take.
    case_decide; [| reflexivity].
    specialize (Hcopy (Z.of_nat m) ltac:(lia)).
    destruct (Z.ltb_spec (Z.of_nat m) (nodes_len r - 1)); [| lia].
    rewrite Nat2Z.id in Hcopy. exact Hcopy.
  - replace (Z.to_nat (nodes_len r - 2 - (nodes_len r - 1))) with 0%nat by lia.
    cbn [for_loop]. rewrite bind_Ok.
    eexists. split; [reflexivity |]. split; [reflexivity |].
    split; [reflexivity |]. rewrite Htake.
    unfold entries. cbn [nodes nodes_len]. reflexivity.
Qed.

Lemma entries_length r : ring_inv r -> length (entries r) = Z.to_nat (nodes_len r).
Proof.
  unfold ring_inv, entries. destruct (nodes r) as [b|].
  - intros [Hb Hl]. rewrite length_take. lia.
  - intros [-> _]. reflexivity.
Qed.

(** X10.  Delete of the identifier at the largest position of a sorted ring
    removes exactly the last entry. *)
Theorem delete_node_largest (r : ConsistentHasher) (h : ConsistentHasherHash)
    (x : ConsistentHasherNode) :
  ring_size r <> 0 -> ring_inv r -> sorted (entries r) ->
  entries r !! Z.to_nat (nodes_len r - 1) = Some x ->
  position x = h mod ring_size r ->
  exists r',
    consistent_hasher_delete_node true (Some r) h
      = Ok (CONSISTENT_HASHER_OK, Some r') /\
    entries r = entries r' ++ [x] /\
    nodes_len r' = nodes_len r - 1 /\
    sorted (entries r') /\ ring_inv r'.
Proof.
  intros Hsize Hinv Hsorted Hx Hpos.
  destruct (delete_node_last r h x Hsize Hinv Hsorted Hx Hpos)
    as (r' & Hdel & _ & Hlen' & Hent).
  exists r'. split; [exact Hdel |].
  pose proof (entries_length r Hinv) as Hl.
  pose proof (lookup_lt_Some _ _ _ Hx) as Hlt.
  split; [| split; [exact Hlen' | split]].
  - rewrite Hent. rewrite <- (take_drop (Z.to_nat (nodes_len r - 1)) (entries r)) at 1.
    f_equal. apply list_eq. intros [|m].
    + rewrite lookup_drop, Nat.add_0_r. exact Hx.
    + rewrite lookup_drop. apply lookup_ge_None_2. lia.
  - rewrite Hent. apply sorted_take, Hsorted.
  - destruct (delete_node_ring_inv _ _ _ _ _ Hinv Hdel) as (r1 & [= <-] & Hinv' & _).
    exact Hinv'.
Qed.

(** Insert of an identifier whose position is above every entry of a sorted
    ring appends its node, whether the buffer is allocated, grown or has
    room. *)
Lemma insert_node_append initial_capacity (r : ConsistentHasher)
    (h : ConsistentHasherHash) :
  ring_size r <> 0 -> ring_inv r -> sorted (entries r) ->
  (forall n, n ∈ entries r -> position n < h mod ring_size r) ->
  match nodes r with
  | None => 1 <= initial_capacity
  | Some _ => 1 <= nodes_capacity r /\ nodes_capacity r * 2 <= INT_MAX
  end ->
  exists r',
    consistent_hasher_insert_node initial_capacity true (Some r) h
      = Ok (CONSISTENT_HASHER_OK, Some r') /\
    ring_size r' = ring_size r /\ ring_inv r' /\
    entries r' = entries r ++ [node_of (ring_size r) h] /\
    sorted (entries r') /\
    nodes_len r' = nodes_len r + 1 /\
    nodes r' <> None /\
    nodes_capacity r' =
      match nodes r with
      | None => initial_capacity
      | Some _ => if nodes_capacity r =? nodes_len r
                  then nodes_capacity r * 2 else nodes_capacity r
      end.
Proof.
  intros Hsize Hinv Hsorted Habove Hcap.
  assert (exists r', consistent_hasher_insert_node initial_capacity true (Some r) h
                     = Ok (CONSISTENT_HASHER_OK, Some r') /\
                     entries r' = entries r ++ [node_of (ring_size r) h] /\
                     sorted (entries r')) as (r' & Hins & Hent & Hsorted').
  { destruct (nodes r) as [b|] eqn:Hb.
    - destruct (insert_node_grow_or_append initial_capacity r h Hsize Hinv)
        as (r' & idx & Hins & _ & _ & Hent & Hsorted');
        [congruence | exact Hsorted | | lia | lia | right; exact Habove |].
      { intros n Hn. pose proof (Habove n Hn). lia. }
      exists r'. split; [exact Hins |]. split; [| exact Hsorted'].
      rewrite Hent.
      destruct (le_lt_dec (length (entries r)) idx) as [Hge|Hlt].
      + rewrite take_ge, drop_ge by lia. reflexivity.
      + exfalso. destruct (lookup_lt_is_Some_2 (entries r) idx Hlt) as [y Hy].
        pose proof (Habove y (list_elem_of_lookup_2 _ _ _ Hy)) as Hyp.
        assert (h mod ring_size r < position y); [| lia].
        apply (Hsorted' idx (mkNode h (h mod ring_size r)) y); rewrite Hent;
          rewrite lookup_inserted by lia; repeat case_decide; try lia.
        * reflexivity.
        * rewrite <- Hy. f_equal. lia.
    - destruct (insert_node_first initial_capacity r h Hsize Hb Hcap)
        as (r' & Hins & _ & _ & _ & Hent).
      exists r'. split; [exact Hins |].
      assert (entries r = []) as -> by (unfold entries; rewrite Hb; reflexivity).
      split; [exact Hent |]. rewrite Hent. intros [|i] a b Ha Hb'; discriminate. }
  exists r'. split; [exact Hins |].
  destruct (insert_node_ring_inv _ _ _ _ _ _ Hinv Hins) as (r1 & [= <-] & Hinv' & Hsize').
  destruct (insert_node_counts _ _ _ _ _ Hins) as (r1 & [= <-] & _ & Hcounts).
  split; [exact Hsize' |]. split; [exact Hinv' |]. split; [exact Hent |].
  split; [exact Hsorted' |].
  assert (nodes r' <> None) as Hnn.
  { intros Hn. unfold entries in Hent at 1. rewrite Hn in Hent.
    destruct (entries r); discriminate Hent. }
  pose proof Hinv as Hshape. unfold ring_inv in Hshape.
  destruct (nodes r) as [b|].
  - destruct Hcounts as [Hl [(Hfull & _ & Hc)|(Hroom & Hc)]].
    + split; [exact Hl |]. split; [exact Hnn |].
      destruct (Z.eqb_spec (nodes_capacity r) (nodes_len r)); [exact Hc | contradiction].
    + split; [exact Hl |]. split; [exact Hnn |].
      destruct (Z.eqb_spec (nodes_capacity r) (nodes_len r)); [contradiction | exact Hc].
  - destruct Hcounts as (_ & Hl & Hc). destruct Hshape as [Hz _].
    split; [lia |]. split; [exact Hnn | exact Hc].
Qed.

(** X11.  Round trip above the ring: on a sorted ring, insert of an identifier
    whose position is above every entry followed by delete of the same
    identifier gives back the entries and the count. *)
Theorem insert_then_delete_above initial_capacity (r : ConsistentHasher)
    (h : ConsistentHasherHash) :
  ring_size r <> 0 -> ring_inv r -> sorted (entries r) ->
  (forall n, n ∈ entries r -> position n < h mod ring_size r) ->
  match nodes r with
  | None => 1 <= initial_capacity
  | Some _ => 1 <= nodes_capacity r /\ nodes_capacity r * 2 <= INT_MAX
  end ->
  exists r1 r2,
    consistent_hasher_insert_node initial_capacity true (Some r) h
      = Ok (CONSISTENT_HASHER_OK, Some r1) /\
    consistent_hasher_delete_node true (Some r1) h
      = Ok (CONSISTENT_HASHER_OK, Some r2) /\
    entries r1 = entries r ++ [node_of (ring_size r) h] /\
    entries r2 = entries r /\
    nodes_len r2 = nodes_len r.
Proof.
  intros Hsize Hinv Hsorted Habove Hcap.
  destruct (insert_node_append initial_capacity r h Hsize Hinv Hsorted Habove Hcap)
    as (r1 & Hins & Hsize1 & Hinv1 & Hent1 & Hsorted1 & Hlen1 & _ & _).
  pose proof (entries_length r Hinv) as Hl.
  assert (0 <= nodes_len r) as Hlen0.
  { unfold ring_inv in Hinv. destruct (nodes r); lia. }
  destruct (delete_node_last r1 h (node_of (ring_size r) h))
    as (r2 & Hdel & _ & Hlen2 & Hent2);
    [congruence | exact Hinv1 | exact Hsorted1 | | rewrite Hsize1; reflexivity |].
  { rewrite Hent1, Hlen1. rewrite lookup_app_r by lia.
    replace (Z.to_nat (nodes_len r + 1 - 1) - length (entries r))%nat
      with 0%nat by lia. reflexivity. }
  exists r1, r2. split; [exact Hins |]. split; [exact Hdel |].
  split; [exact Hent1 |]. split; [| lia].
  rewrite Hent2, Hent1, Hlen1. rewrite take_app_length' by lia. reflexivity.
Qed.



(** For a position above every entry of a sorted ring the locator misses and
    reports the count. *)
Lemma binary_search_above (r : ConsistentHasher) (h : ConsistentHasherHash) :
  ring_size r <> 0 -> ring_inv r -> sorted (entries r) ->
  (forall n, n ∈ entries r -> position n < h mod ring_size r) ->
  _consistent_hasher_binary_search (Some r) h = Ok (false, nodes_len r).
Proof.
  intros Hsize Hinv Hsorted Habove.
  pose proof (entries_length r Hinv) as Hl.
  assert (0 <= nodes_len r) as Hlen.
  { unfold ring_inv in Hinv. destruct (nodes r); lia. }
  destruct (binary_search_sorted r h Hsize (ring_inv_in_bounds r Hinv)
              Hlen Hsorted) as (found & i & Hrun & Hi & Hleft & Hres).
  destruct found.
  { destruct Hres as (k & n & _ & Hn & Hp). exfalso.
    pose proof (Habove n (list_elem_of_lookup_2 _ _ _ Hn)). lia. }
  destruct (Z.eq_dec i (nodes_len r)) as [->|Hne]; [exact Hrun | exfalso].
  destruct (lookup_lt_is_Some_2 (entries r) (Z.to_nat i)) as [n Hn]; [lia |].
  pose proof (Hres (Z.to_nat i) n Hn ltac:(lia)).
  pose proof (Habove n (list_elem_of_lookup_2 _ _ _ Hn)). lia.
Qed.

(** X14.  Wrap-around where it works. On a sorted ring with at least one
    entry, for an item above every entry, resolve reads the slot just behind
    the entries; when that slot holds a smaller position than the item's (a
    slot never written since [calloc] holds position 0), resolve answers the
    first entry, which has the smallest position. *)
Theorem get_node_of_wraps (r : ConsistentHasher) (item : ConsistentHasherHash)
    (b : list ConsistentHasherNode) (s : ConsistentHasherNode) :
  ring_size r <> 0 -> ring_inv r -> sorted (entries r) -> 1 <= nodes_len r ->
  (forall n, n ∈ entries r -> position n < item mod ring_size r) ->
  nodes r = Some b -> b !! Z.to_nat (nodes_len r) = Some s ->
  position s < item mod ring_size r ->
  exists first,
    entries r !! 0%nat = Some first /\
    consistent_hasher_get_node_of (Some r) item = Ok (hash first) /\
    forall n, n ∈ entries r -> position first <= position n.
Proof.
  intros Hsize Hinv Hsorted Hlen Habove Hb Hs Hsp.
  pose proof (entries_length r Hinv) as Hl.
  destruct (lookup_lt_is_Some_2 (entries r) 0) as [first Hf]; [lia |].
  exists first. split; [exact Hf |]. split.
  - unfold consistent_hasher_get_node_of.
    rewrite (binary_search_above r item Hsize Hinv Hsorted Habove), bind_Ok.
    cbv iota beta. rewrite umod_nonzero by exact Hsize. rewrite bind_Ok, Hb.
    rewrite (load_Some b (nodes_len r) s) by (lia || exact Hs). rewrite bind_Ok.
    destruct (Z.gtb_spec (item mod ring_size r) (position s)); [| lia].
    unfold entries in Hf. rewrite Hb in Hf. apply lookup_take_Some in Hf as [Hf _].
    rewrite (load_Some b 0 first) by (lia || exact Hf). reflexivity.
  - intros n Hn. apply list_elem_of_lookup_1 in Hn as [[|j] Hj].
    + rewrite Hf in Hj. injection Hj as <-. lia.
    + pose proof (sorted_lt _ 0 (S j) first n Hsorted ltac:(lia) Hf Hj). lia.
Qed.

(** X15.  Wrap-around on a full buffer. On a sorted ring whose count equals
    its capacity, for an item above every entry, the slot that resolve reads
    first is outside of the buffer. *)
Theorem get_node_of_full_ring (r : ConsistentHasher) (item : ConsistentHasherHash) :
  ring_size r <> 0 -> ring_inv r -> sorted (entries r) ->
  nodes r <> None -> nodes_len r = nodes_capacity r ->
  (forall n, n ∈ entries r -> position n < item mod ring_size r) ->
  consistent_hasher_get_node_of (Some r) item = Fault OutOfBounds.
Proof.
  intros Hsize Hinv Hsorted Hnn Hfull Habove.
  unfold consistent_hasher_get_node_of.
  rewrite (binary_search_above r item Hsize Hinv Hsorted Habove), bind_Ok.
  cbv iota beta. rewrite umod_nonzero by exact Hsize. rewrite bind_Ok.
  unfold ring_inv in Hinv. destruct (nodes r) as [b|]; [| contradiction].
  destruct Hinv as [Hb Hl]. unfold load.
  destruct (Z.leb_spec 0 (nodes_len r)); [| lia].
  rewrite lookup_ge_None_2 by lia. reflexivity.
Qed.

(** X16.  The operations on a ring fresh from [consistent_hasher_init]: the
    locator misses at index 0, delete succeeds and changes nothing, resolve
    reads through the null buffer, a failed first allocation is reported and
    changes nothing, and a successful one gives the ring of one node. *)
Theorem fresh_ring_operations (size initial_capacity : Z)
    (h : ConsistentHasherHash) (calloc_ok : bool) :
  size <> 0 ->
  _consistent_hasher_binary_search (fresh size) h = Ok (false, 0) /\
  consistent_hasher_delete_node calloc_ok (fresh size) h
    = Ok (CONSISTENT_HASHER_OK, fresh size) /\
  consistent_hasher_get_node_of (fresh size) h = Fault NullDeref /\
  consistent_hasher_insert_node initial_capacity false (fresh size) h
    = Ok (CONSISTENT_HASHER_ERROR_ALLOCATION, fresh size) /\
  (1 <= initial_capacity ->
   exists r,
     consistent_hasher_insert_node initial_capacity true (fresh size) h
       = Ok (CONSISTENT_HASHER_OK, Some r) /\
     entries r = [node_of size h] /\ nodes_len r = 1 /\
     nodes_capacity r = initial_capacity /\ ring_size r = size).
Proof.
  intros Hsize.
  assert (_consistent_hasher_binary_search (fresh size) h = Ok (false, 0)) as Hrun.
  { unfold fresh, uninitialised, consistent_hasher_init,
      _consistent_hasher_binary_search. cbn [ring_size nodes nodes_len].
    rewrite umod_nonzero by exact Hsize. reflexivity. }
  split; [exact Hrun |]. split; [| split; [| split]].
  - unfold consistent_hasher_delete_node in *. unfold fresh, uninitialised,
      consistent_hasher_init in *. rewrite Hrun. reflexivity.
  - unfold consistent_hasher_get_node_of in *. unfold fresh, uninitialised,
      consistent_hasher_init in *. rewrite Hrun, bind_Ok. cbv iota beta.
    cbn [ring_size nodes]. rewrite umod_nonzero by exact Hsize. reflexivity.
  - unfold fresh, uninitialised, consistent_hasher_init,
      consistent_hasher_insert_node. cbn [ring_size nodes].
    rewrite umod_nonzero by exact Hsize. reflexivity.
  - intros Hcap.
    destruct (insert_node_first initial_capacity (mkRing size None 0 0) h Hsize
                eq_refl Hcap) as (r & Hins & Hs & Hl & Hc & Hent).
    exists r. split; [exact Hins |]. split; [exact Hent |].
    split; [exact Hl |]. split; [exact Hc | exact Hs].
Qed.

(** X17.  After [consistent_hasher_destroy] the buffer is null but the count
    is what it was: on a ring that had entries, the locator, delete and
    resolve read through the null buffer, while insert allocates anew and
    leaves a ring of one node. *)
Theorem operations_after_destroy (r : ConsistentHasher) (initial_capacity : Z)
    (h : ConsistentHasherHash) (calloc_ok : bool) :
  ring_size r <> 0 -> 1 <= nodes_len r -> 1 <= initial_capacity ->
  _consistent_hasher_binary_search (consistent_hasher_destroy (Some r)) h
    = Fault NullDeref /\
  consistent_hasher_delete_node calloc_ok (consistent_hasher_destroy (Some r)) h
    = Fault NullDeref /\
  consistent_hasher_get_node_of (consistent_hasher_destroy (Some r)) h
    = Fault NullDeref /\
  exists r',
    consistent_hasher_insert_node initial_capacity true
      (consistent_hasher_destroy (Some r)) h = Ok (CONSISTENT_HASHER_OK, Some r') /\
    entries r' = [node_of (ring_size r) h] /\ nodes_len r' = 1 /\
    nodes_capacity r' = initial_capacity.
Proof.
  intros Hsize Hlen Hcap.
  assert (_consistent_hasher_binary_search (consistent_hasher_destroy (Some r)) h
          = Fault NullDeref) as Hrun.
  { unfold consistent_hasher_destroy, _consistent_hasher_binary_search.
    cbn [ring_size nodes nodes_len].
    rewrite umod_nonzero by exact Hsize. rewrite bind_Ok.
    destruct (Z.to_nat (nodes_len r)) as [|fuel] eqn:Hf; [lia |].
    cbn [bsearch_loop]. destruct (Z.geb_spec (nodes_len r - 1) 0); [| lia].
    reflexivity. }
  split; [exact Hrun |]. split; [| split].
  - unfold consistent_hasher_delete_node.
    unfold consistent_hasher_destroy in *. rewrite Hrun. reflexivity.
  - unfold consistent_hasher_get_node_of.
    unfold consistent_hasher_destroy in *. rewrite Hrun. reflexivity.
  - unfold consistent_hasher_destroy.
    destruct (insert_node_first initial_capacity
                (mkRing (ring_size r) None (nodes_len r) (nodes_capacity r)) h
                Hsize eq_refl Hcap) as (r' & Hins & _ & Hl & Hc & Hent).
    exists r'. split; [exact Hins |]. split; [exact Hent |].
    split; [exact Hl | exact Hc].
Qed.

(** X8.  Collision rejection on a sorted ring: insert answers
    [CONSISTENT_HASHER_ERROR_NODE_PRESENT], leaving the ring as it is, exactly
    when an entry holds the position of the identifier, whatever identifier
    that entry has. *)
Theorem insert_node_present_iff initial_capacity calloc_ok (r : ConsistentHasher)
    (h : ConsistentHasherHash) :
  ring_size r <> 0 -> ring_inv r -> sorted (entries r) ->
  (exists n, n ∈ entries r /\ position n = h mod ring_size r) <->
  consistent_hasher_insert_node initial_capacity calloc_ok (Some r) h
  = Ok (CONSISTENT_HASHER_ERROR_NODE_PRESENT, Some r).
Proof.
  intros Hsize Hinv Hsorted. split.
  - apply insert_node_present; assumption.
  - intros H. unfold consistent_hasher_insert_node in H.
    inv_bind H as pos Hpos. destruct (nodes r) as [b|] eqn:Hb.
    + inv_bind H as fi Hfi. destruct fi as [found index]. destruct found.
      * destruct (binary_search_hit r h index Hfi) as (_ & _ & k & n & _ & Hn & Hp).
        exists n. split; [eapply list_elem_of_lookup_2; exact Hn | exact Hp].
      * destruct (nodes_capacity r =? nodes_len r).
        -- inv_bind H as cap' Hcap'. destruct calloc_ok; simpl in H;
             [| discriminate].
           inv_bind H as q1 Hq1. inv_bind H as q2 Hq2. inv_bind H as l Hl.
           discriminate.
        -- inv_bind H as q1 Hq1. inv_bind H as q2 Hq2. inv_bind H as l Hl.
           discriminate.
    + destruct calloc_ok; simpl in H; [| discriminate].
      inv_bind H as q1 Hq1. discriminate.
Qed.

(** ** The properties at work *)

Ltac shape := unfold ring_inv, in_bounds; cbn; lia.
Ltac ascending := apply sortedb_sorted; reflexivity.
Ltac each_entry := apply Forall_forall; vm_compute; repeat constructor.

(** X1 at work on a concrete ring. *)
Lemma binary_search_any_ring_witness :
  exists found i,
    _consistent_hasher_binary_search (Some ring_123_0) 50 = Ok (found, i) /\
    0 <= i <= nodes_len ring_123_0 /\
    (found = true ->
     exists (k : nat) n, i <= Z.of_nat k /\ entries ring_123_0 !! k = Some n /\
                         position n = 50 mod ring_size ring_123_0) /\
    ((forall n, n ∈ entries ring_123_0 -> position n <> 50 mod ring_size ring_123_0) ->
     found = false).
Proof.
  apply (binary_search_any_ring ring_123_0 50); [discriminate | shape | shape].
Defined.

(** X2 at work on a concrete ring. *)
Lemma binary_search_sorted_ring_witness :
  exists found i,
    _consistent_hasher_binary_search (Some ring_123_456_924) 500 = Ok (found, i) /\
    0 <= i <= nodes_len ring_123_456_924 /\
    (found = true <->
     exists n, n ∈ entries ring_123_456_924 /\
               position n = 500 mod ring_size ring_123_456_924) /\
    (forall (j : nat) n, entries ring_123_456_924 !! j = Some n -> Z.of_nat j < i ->
                         position n < 500 mod ring_size ring_123_456_924) /\
    (found = false ->
     forall (j : nat) n, entries ring_123_456_924 !! j = Some n -> i <= Z.of_nat j ->
                         500 mod ring_size ring_123_456_924 < position n).
Proof.
  apply (binary_search_sorted_ring ring_123_456_924 500);
    [discriminate | shape | shape | ascending].
Defined.

(** X3 at work on a concrete ring. *)
Lemma insert_node_error_witness :
  Some ring_123 = Some ring_123 /\
  CONSISTENT_HASHER_ERROR_NODE_PRESENT <> CONSISTENT_HASHER_ERROR_IS_NULL /\
  (CONSISTENT_HASHER_ERROR_NODE_PRESENT = CONSISTENT_HASHER_ERROR_NODE_PRESENT ->
   exists n, n ∈ entries ring_123 /\ position n = 1147 mod ring_size ring_123) /\
  (CONSISTENT_HASHER_ERROR_NODE_PRESENT = CONSISTENT_HASHER_ERROR_ALLOCATION ->
   true = false /\
   (nodes ring_123 = None \/ nodes_capacity ring_123 = nodes_len ring_123)).
Proof.
  apply (insert_node_error 8 true ring_123 1147
           CONSISTENT_HASHER_ERROR_NODE_PRESENT (Some ring_123));
    [reflexivity | discriminate].
Defined.

(** X4 at work on a concrete ring. *)
Lemma insert_node_success_witness :
  exists r',
    Some tight_100_200_300 = Some r' /\
    ring_size r' = ring_size tight_100_300 /\
    mkNode 200 (200 mod ring_size tight_100_300) ∈ entries r' /\
    match nodes tight_100_300 with
    | None => true = true /\ nodes_len r' = 1 /\ nodes_capacity r' = 1
    | Some _ =>
        nodes_len r' = nodes_len tight_100_300 + 1 /\
        (nodes_capacity tight_100_300 = nodes_len tight_100_300 /\ true = true /\
         nodes_capacity r' = nodes_capacity tight_100_300 * 2 \/
         nodes_capacity tight_100_300 <> nodes_len tight_100_300 /\
         nodes_capacity r' = nodes_capacity tight_100_300)
    end.
Proof.
  apply (insert_node_success 1 true tight_100_300 200 (Some tight_100_200_300)).
  reflexivity.
Defined.

(** X5 at work on a concrete ring. *)
Lemma delete_node_outcome_witness :
  (CONSISTENT_HASHER_OK = CONSISTENT_HASHER_ERROR_ALLOCATION /\
   Some ring_100_200_stale = Some ring_100_200_300 /\
   true = false /\
   nodes_len ring_100_200_300 - 1 = nodes_capacity ring_100_200_300 ÷ 2) \/
  (CONSISTENT_HASHER_OK = CONSISTENT_HASHER_OK /\
   Some ring_100_200_stale = Some ring_100_200_300) \/
  (CONSISTENT_HASHER_OK = CONSISTENT_HASHER_OK /\
   (exists n, n ∈ entries ring_100_200_300 /\
              position n = 300 mod ring_size ring_100_200_300) /\
   exists r',
     Some ring_100_200_stale = Some r' /\
     ring_size r' = ring_size ring_100_200_300 /\
     nodes_len r' = nodes_len ring_100_200_300 - 1 /\ 0 <= nodes_len r' /\
     (nodes_len ring_100_200_300 - 1 = nodes_capacity ring_100_200_300 ÷ 2 /\
      true = true /\
      nodes_capacity r' = nodes_len ring_100_200_300 - 1 \/
      nodes_len ring_100_200_300 - 1 <> nodes_capacity ring_100_200_300 ÷ 2 /\
      nodes_capacity r' = nodes_capacity ring_100_200_300)).
Proof.
  apply (delete_node_outcome true ring_100_200_300 300
           CONSISTENT_HASHER_OK (Some ring_100_200_stale)).
  reflexivity.
Defined.

(** X6 at work on a concrete ring. *)
Lemma run_count_le_capacity_witness :
  0 <= nodes_len ring_123_0 <= nodes_capacity ring_123_0 /\
  ring_size ring_123_0 = 1024 /\ in_bounds ring_123_0.
Proof.
  apply (run_count_le_capacity 8 1024 [Insert 456 true; Insert 123 true] ring_123_0).
  reflexivity.
Defined.

(** X7 at work on a concrete ring. *)
Lemma insert_node_keeps_entries_witness :
  exists r',
    consistent_hasher_insert_node 1 true (Some tight_100_300) 200
      = Ok (CONSISTENT_HASHER_OK, Some r') /\
    entries r' ≡ₚ mkNode 200 (200 mod ring_size tight_100_300)
                   :: entries tight_100_300 /\
    sorted (entries r') /\ ring_inv r'.
Proof.
  apply (insert_node_keeps_entries 1 tight_100_300 200);
    [discriminate | shape | discriminate | ascending | each_entry; discriminate
    | shape | unfold INT_MAX; shape | left; reflexivity].
Defined.

(** X8 at work on a concrete ring. *)
Lemma insert_node_present_iff_witness :
  (exists n, n ∈ entries ring_123_456_924 /\
             position n = 1480 mod ring_size ring_123_456_924) <->
  consistent_hasher_insert_node 8 true (Some ring_123_456_924) 1480
  = Ok (CONSISTENT_HASHER_ERROR_NODE_PRESENT, Some ring_123_456_924).
Proof.
  apply (insert_node_present_iff 8 true ring_123_456_924 1480);
    [discriminate | shape | ascending].
Defined.

(** X9 at work on a concrete ring. *)
Lemma insert_node_collision_witness :
  exists r',
    consistent_hasher_insert_node 1 true (Some tight_100_300) 200
      = Ok (CONSISTENT_HASHER_OK, Some r') /\
    consistent_hasher_insert_node 1 true (Some r') 1224
      = Ok (CONSISTENT_HASHER_ERROR_NODE_PRESENT, Some r').
Proof.
  apply (insert_node_collision 1 true tight_100_300 200 1224);
    [discriminate | shape | discriminate | ascending | each_entry; discriminate
    | shape | unfold INT_MAX; shape | left; reflexivity | reflexivity].
Defined.

(** X10 at work on a concrete ring. *)
Lemma delete_node_largest_witness :
  exists r',
    consistent_hasher_delete_node true (Some ring_100_200_300) 1324
      = Ok (CONSISTENT_HASHER_OK, Some r') /\
    entries ring_100_200_300 = entries r' ++ [at_ 300] /\
    nodes_len r' = nodes_len ring_100_200_300 - 1 /\
    sorted (entries r') /\ ring_inv r'.
Proof.
  apply (delete_node_largest ring_100_200_300 1324 (at_ 300));
    [discriminate | shape | ascending | reflexivity | reflexivity].
Defined.

(** X11 at work on a concrete ring. *)
Lemma insert_then_delete_above_witness :
  exists r1 r2,
    consistent_hasher_insert_node 1 true (Some tight_100_300) 500
      = Ok (CONSISTENT_HASHER_OK, Some r1) /\
    consistent_hasher_delete_node true (Some r1) 500
      = Ok (CONSISTENT_HASHER_OK, Some r2) /\
    entries r1 = entries tight_100_300 ++ [node_of (ring_size tight_100_300) 500] /\
    entries r2 = entries tight_100_300 /\
    nodes_len r2 = nodes_len tight_100_300.
Proof.
  apply (insert_then_delete_above 1 tight_100_300 500);
    [discriminate | shape | ascending | each_entry | unfold INT_MAX; shape].
Defined.


(** X13 at work on a concrete ring. *)
Lemma get_node_of_between_nodes_witness :
  exists (k : nat) owner,
    consistent_hasher_get_node_of (Some ring_123_456_924) 150 = Ok (hash owner) /\
    entries ring_123_456_924 !! k = Some owner /\
    150 mod ring_size ring_123_456_924 < position owner /\
    (forall (j : nat) n, entries ring_123_456_924 !! j = Some n -> (j < k)%nat ->
                         position n < 150 mod ring_size ring_123_456_924).
Proof.
  apply (get_node_of_between_nodes ring_123_456_924 150);
    [discriminate | shape | ascending | each_entry; discriminate |].
  exists (at_ 456). split; [| vm_compute; discriminate].
  apply (list_elem_of_lookup_2 _ 1%nat). reflexivity.
Defined.

(** X14 at work on a concrete ring. *)
Lemma get_node_of_wraps_witness :
  exists first,
    entries ring_123_456_924 !! 0%nat = Some first /\
    consistent_hasher_get_node_of (Some ring_123_456_924) 1000 = Ok (hash first) /\
    forall n, n ∈ entries ring_123_456_924 -> position first <= position n.
Proof.
  apply (get_node_of_wraps ring_123_456_924 1000
           [at_ 123; at_ 456; at_ 924; zero_node; zero_node; zero_node;
            zero_node; zero_node] zero_node);
    [discriminate | shape | ascending | shape | each_entry | reflexivity
    | reflexivity | reflexivity].
Defined.

(** X15 at work on a concrete ring. *)
Lemma get_node_of_full_ring_witness :
  consistent_hasher_get_node_of (Some tight_100_300) 500 = Fault OutOfBounds.
Proof.
  apply (get_node_of_full_ring tight_100_300 500);
    [discriminate | shape | ascending | discriminate | reflexivity | each_entry].
Defined.

(** X16 at work on a concrete ring. *)
Lemma fresh_ring_operations_witness :
  _consistent_hasher_binary_search (fresh 1024) 123 = Ok (false, 0) /\
  consistent_hasher_delete_node true (fresh 1024) 123
    = Ok (CONSISTENT_HASHER_OK, fresh 1024) /\
  consistent_hasher_get_node_of (fresh 1024) 123 = Fault NullDeref /\
  consistent_hasher_insert_node 8 false (fresh 1024) 123
    = Ok (CONSISTENT_HASHER_ERROR_ALLOCATION, fresh 1024) /\
  (1 <= 8 ->
   exists r,
     consistent_hasher_insert_node 8 true (fresh 1024) 123
       = Ok (CONSISTENT_HASHER_OK, Some r) /\
     entries r = [node_of 1024 123] /\ nodes_len r = 1 /\
     nodes_capacity r = 8 /\ ring_size r = 1024).
Proof.
  apply (fresh_ring_operations 1024 8 123 true). discriminate.
Defined.

(** X17 at work on a concrete ring. *)
Lemma operations_after_destroy_witness :
  _consistent_hasher_binary_search (consistent_hasher_destroy (Some ring_123)) 456
    = Fault NullDeref /\
  consistent_hasher_delete_node true (consistent_hasher_destroy (Some ring_123)) 456
    = Fault NullDeref /\
  consistent_hasher_get_node_of (consistent_hasher_destroy (Some ring_123)) 456
    = Fault NullDeref /\
  exists r',
    consistent_hasher_insert_node 8 true
      (consistent_hasher_destroy (Some ring_123)) 456
      = Ok (CONSISTENT_HASHER_OK, Some r') /\
    entries r' = [node_of (ring_size ring_123) 456] /\ nodes_len r' = 1 /\
    nodes_capacity r' = 8.
Proof.
  apply (operations_after_destroy ring_123 8 456 true);
    [discriminate | shape | lia].
Defined.
